(** * Crypto Runner: the canvas simulator and the host shell

    A shallow embedding of [components/CryptoRunnerCanvas.tsx] (the entity
    simulator: [initGame], [createExplosion], [handleMove], [update]) and of
    [App.tsx] (the host shell: the high-score load, [startGame],
    [handleGameOver]), with the properties of the specification stated
    over them.

    Numbers.  A JavaScript [number] is modelled as a real number: [+], [-],
    [*], [/] and the comparisons are the exact ones, [Math.pow] on a positive
    base is [Rpower], [Math.floor] is [Zfloor], [Math.max]/[Math.min] are
    [Rmax]/[Rmin].  The rounding of IEEE doubles, infinities and NaN are not
    modelled in the simulator (the host shell models the NaN that [parseInt]
    can return, since a comparison depends on it).  The scores of the shell
    are integers; the strings that [toString] writes and [parseInt] reads
    are those of JavaScript on the safe integers.

    Randomness.  [Math.random] is an oracle [Math_random : nat -> R]: the
    n-th call returns [Math_random n], and the simulator state carries the
    number of calls made so far.  The draws of the star field and of the
    noise buffer of the crash sound are not counted: every statement below
    holds for every oracle and every position in it, so a run of the
    component with these draws is a run of the model on the oracle without
    them, and no statement counts draws.

    Effects.  The refs of the component ([playerRef], [obstaclesRef], ...)
    are the fields of one record [Refs] passed through every operation; the
    calls to the callbacks [onScoreUpdate], [onGameOver] and to the sound
    helpers are returned as a list of [Event]s, in call order.  The renderer
    reads the refs and writes none, and is not modelled. *)

From Stdlib Require Import Reals Lra Lia ZArith List String Ascii Bool.
From Stdlib Require Import Zfloor DecimalString.
From Stdlib Require DecimalPos.
Import ListNotations.

Open Scope R_scope.

(** ** Comparisons of numbers as booleans *)

Definition Rltb (a b : R) : bool := if Rlt_dec a b then true else false.
Definition Rgtb (a b : R) : bool := Rltb b a.
Definition Rleb (a b : R) : bool := if Rle_dec a b then true else false.

(** ** types.ts *)

Inductive GameState : Type := START | PLAYING | GAMEOVER.

Definition GameState_eqb (a b : GameState) : bool :=
  match a, b with
  | START, START | PLAYING, PLAYING | GAMEOVER, GAMEOVER => true
  | _, _ => false
  end.

(** [Player & { targetX: number }] *)
Record Player : Type := mkPlayer {
  p_x : R;
  p_y : R;
  p_width : R;
  p_height : R;
  p_color : string;
  p_targetX : R
}.

Record Obstacle : Type := mkObstacle {
  o_x : R;
  o_y : R;
  o_width : R;
  o_height : R;
  o_color : string;
  o_speed : R
}.

Record Particle : Type := mkParticle {
  pt_x : R;
  pt_y : R;
  pt_vx : R;
  pt_vy : R;
  pt_life : R;
  pt_maxLife : R;
  pt_color : string;
  pt_size : R
}.

(** The part of the canvas element the simulator reads. *)
Record Canvas : Type := mkCanvas {
  width : R;
  height : R
}.

(** The argument of [move]: ['left' | 'right']. *)
Inductive Direction : Type := Left | Right.

(** ** CryptoRunnerCanvas.tsx: constants and refs *)

Definition BASE_BLUE : string := "#0052FF".
Definition RED_VULN : string := "#FF4444".
Definition INITIAL_FALL_SPEED : R := 4.
Definition SPEED_INCREMENT : R := 0.00015.

Inductive Event : Type :=
  | onScoreUpdate (score : Z)
  | onGameOver (score : Z)
  | playMoveSound
  | playScoreSound
  | playCrashSound.

Record Refs : Type := mkRefs {
  canvasRef : option Canvas;
  playerRef : Player;
  obstaclesRef : list Obstacle;
  particlesRef : list Particle;
  scoreRef : R;
  spawnTimerRef : R;
  currentDifficultyRef : R;
  currentFallSpeedRef : R;
  randomCalls : nat
}.

(** The refs as [useRef] initialises them, before the canvas is mounted. *)
Definition initialRefs : Refs :=
  {| canvasRef := None;
     playerRef := {| p_x := 0; p_y := 0; p_width := 48; p_height := 48;
                     p_color := BASE_BLUE; p_targetX := 0 |};
     obstaclesRef := [];
     particlesRef := [];
     scoreRef := 0;
     spawnTimerRef := 0;
     currentDifficultyRef := 1;
     currentFallSpeedRef := INITIAL_FALL_SPEED;
     randomCalls := 0 |}.

(** ** The particle pass of [update]

    [particlesRef.current.filter(p => { p.x += ...; p.life -= ...;
    return p.life > 0 })]: every particle is advanced, then kept when its
    new life is positive. *)

Definition advanceParticle (dt : R) (p : Particle) : Particle :=
  {| pt_x := pt_x p + pt_vx p * (dt / 16.66);
     pt_y := pt_y p + pt_vy p * (dt / 16.66);
     pt_vx := pt_vx p;
     pt_vy := pt_vy p;
     pt_life := pt_life p - 0.02 * (dt / 16.66);
     pt_maxLife := pt_maxLife p;
     pt_color := pt_color p;
     pt_size := pt_size p |}.

Definition particleAlive (p : Particle) : bool := Rgtb (pt_life p) 0.

Definition advanceParticles (dt : R) (ps : list Particle) : list Particle :=
  filter particleAlive (map (advanceParticle dt) ps).

(** ** The player easing of [update]

    [dx = p.targetX - p.x; p.x += dx * (1 - Math.pow(0.001, dt / 1000))]. *)

Definition easePlayer (dt : R) (p : Player) : Player :=
  let dx := p_targetX p - p_x p in
  {| p_x := p_x p + dx * (1 - Rpower 0.001 (dt / 1000));
     p_y := p_y p;
     p_width := p_width p;
     p_height := p_height p;
     p_color := p_color p;
     p_targetX := p_targetX p |}.

(** ** Setters for the refs (an assignment to [someRef.current]) *)

Definition set_playerRef (p : Player) (r : Refs) : Refs :=
  mkRefs (canvasRef r) p (obstaclesRef r) (particlesRef r) (scoreRef r)
         (spawnTimerRef r) (currentDifficultyRef r) (currentFallSpeedRef r)
         (randomCalls r).

Definition set_obstaclesRef (os : list Obstacle) (r : Refs) : Refs :=
  mkRefs (canvasRef r) (playerRef r) os (particlesRef r) (scoreRef r)
         (spawnTimerRef r) (currentDifficultyRef r) (currentFallSpeedRef r)
         (randomCalls r).

Definition set_particlesRef (ps : list Particle) (r : Refs) : Refs :=
  mkRefs (canvasRef r) (playerRef r) (obstaclesRef r) ps (scoreRef r)
         (spawnTimerRef r) (currentDifficultyRef r) (currentFallSpeedRef r)
         (randomCalls r).

Definition set_scoreRef (s : R) (r : Refs) : Refs :=
  mkRefs (canvasRef r) (playerRef r) (obstaclesRef r) (particlesRef r) s
         (spawnTimerRef r) (currentDifficultyRef r) (currentFallSpeedRef r)
         (randomCalls r).

Definition set_spawnTimerRef (t : R) (r : Refs) : Refs :=
  mkRefs (canvasRef r) (playerRef r) (obstaclesRef r) (particlesRef r)
         (scoreRef r) t (currentDifficultyRef r) (currentFallSpeedRef r)
         (randomCalls r).

Definition set_currentDifficultyRef (d : R) (r : Refs) : Refs :=
  mkRefs (canvasRef r) (playerRef r) (obstaclesRef r) (particlesRef r)
         (scoreRef r) (spawnTimerRef r) d (currentFallSpeedRef r)
         (randomCalls r).

Definition set_currentFallSpeedRef (v : R) (r : Refs) : Refs :=
  mkRefs (canvasRef r) (playerRef r) (obstaclesRef r) (particlesRef r)
         (scoreRef r) (spawnTimerRef r) (currentDifficultyRef r) v
         (randomCalls r).

Definition set_randomCalls (n : nat) (r : Refs) : Refs :=
  mkRefs (canvasRef r) (playerRef r) (obstaclesRef r) (particlesRef r)
         (scoreRef r) (spawnTimerRef r) (currentDifficultyRef r)
         (currentFallSpeedRef r) n.

(** The player with a new [targetX] ([p.targetX = ...]). *)
Definition set_targetX (t : R) (p : Player) : Player :=
  mkPlayer (p_x p) (p_y p) (p_width p) (p_height p) (p_color p) t.

Section Simulator.

(** The n-th call of [Math.random()]. *)
Variable Math_random : nat -> R.

(** *** [initGame] *)

Definition initGame (r : Refs) : Refs * list Event :=
  match canvasRef r with
  | None => (r, [])
  | Some canvas =>
      let startX := width canvas / 2 - 24 in
      ({| canvasRef := canvasRef r;
          playerRef := {| p_x := startX; p_y := height canvas - 240;
                          p_width := 48; p_height := 48;
                          p_color := BASE_BLUE; p_targetX := startX |};
          obstaclesRef := [];
          particlesRef := [];
          scoreRef := 0;
          spawnTimerRef := 0;
          currentDifficultyRef := 1;
          currentFallSpeedRef := INITIAL_FALL_SPEED;
          randomCalls := randomCalls r |},
       [onScoreUpdate 0%Z])
  end.

(** The [resize] handler: the canvas takes the size of the window, then
    [initGame] runs. *)
Definition resize (innerWidth innerHeight : R) (r : Refs) : Refs * list Event :=
  initGame
    (mkRefs (Some (mkCanvas innerWidth innerHeight)) (playerRef r)
            (obstaclesRef r) (particlesRef r) (scoreRef r) (spawnTimerRef r)
            (currentDifficultyRef r) (currentFallSpeedRef r) (randomCalls r)).

(** *** [createExplosion] *)

(** One particle of the burst: three draws, in the order angle, speed,
    size. *)
Definition explosionParticle (x y : R) (color : string) (n : nat) : Particle :=
  let angle := Math_random n * PI * 2 in
  let speed := 2 + Math_random (n + 1) * 6 in
  {| pt_x := x; pt_y := y;
     pt_vx := cos angle * speed;
     pt_vy := sin angle * speed;
     pt_life := 1.0; pt_maxLife := 1.0;
     pt_color := color;
     pt_size := 2 + Math_random (n + 2) * 4 |}.

(** [for (let i = 0; i < count; i++) particlesRef.current.push(...)], with
    [todo] iterations left. *)
Fixpoint explosionLoop (todo : nat) (x y : R) (color : string) (r : Refs) : Refs :=
  match todo with
  | O => r
  | S todo' =>
      let n := randomCalls r in
      explosionLoop todo' x y color
        (set_randomCalls (n + 3)
           (set_particlesRef (particlesRef r ++ [explosionParticle x y color n]) r))
  end.

(** [playCrashSound()] comes first and is recorded as a call; the draws
    it makes for its noise buffer when an audio context exists are not
    counted in [randomCalls] (see the head of the file). *)
Definition createExplosion (x y : R) (color : string) (r : Refs) : Refs * list Event :=
  let count := 25%nat in
  (explosionLoop count x y color r, [playCrashSound]).

(** *** [handleMove] *)

Definition handleMove (gameState : GameState) (dir : Direction) (r : Refs)
  : Refs * list Event :=
  if negb (GameState_eqb gameState PLAYING) then (r, []) else
  match canvasRef r with
  | None => (r, [])
  | Some canvas =>
      let laneWidth := width canvas / 4 in
      let p := playerRef r in
      let p' :=
        match dir with
        | Left => set_targetX (Rmax 10 (p_targetX p - laneWidth)) p
        | Right => set_targetX (Rmin (width canvas - p_width p - 10)
                                     (p_targetX p + laneWidth)) p
        end in
      (set_playerRef p' r, [playMoveSound])
  end.

(** *** [update]: spawning *)

(** The obstacle pushed when the spawn timer has run out: three draws, in
    the order width, x, speed. *)
Definition spawnObstacle (canvas : Canvas) (r : Refs) : Obstacle :=
  let n := randomCalls r in
  let w := 50 + Math_random n * 80 in
  let x := Math_random (n + 1) * (width canvas - w) in
  {| o_x := x; o_y := -100; o_width := w; o_height := 45;
     o_color := RED_VULN;
     o_speed := currentFallSpeedRef r + Math_random (n + 2) * 2.5 |}.

(** [if (spawnTimerRef.current <= 0) { ... }] *)
Definition spawnStep (canvas : Canvas) (r : Refs) : Refs :=
  if Rleb (spawnTimerRef r) 0 then
    set_spawnTimerRef (Rmax 350 (1000 / currentDifficultyRef r))
      (set_randomCalls (randomCalls r + 3)
         (set_obstaclesRef (obstaclesRef r ++ [spawnObstacle canvas r]) r))
  else r.

(** *** [update]: the obstacle pass *)

Definition fall (dt : R) (obs : Obstacle) : Obstacle :=
  mkObstacle (o_x obs) (o_y obs + o_speed obs * (dt / 16.66)) (o_width obs)
             (o_height obs) (o_color obs) (o_speed obs).

Definition collides (p : Player) (obs : Obstacle) : bool :=
  Rltb (p_x p) (o_x obs + o_width obs) &&
  Rgtb (p_x p + p_width p) (o_x obs) &&
  Rltb (p_y p) (o_y obs + o_height obs) &&
  Rgtb (p_y p + p_height p) (o_y obs).

(** [obstaclesRef.current.filter(obs => { ... })]: the callback runs on the
    obstacles in array order, against the refs as the earlier calls left
    them; the result is the kept obstacles, the refs and the calls made. *)
Fixpoint obstaclePass (dt : R) (canvas : Canvas) (p : Player)
    (obs : list Obstacle) (r : Refs) : list Obstacle * Refs * list Event :=
  match obs with
  | [] => ([], r, [])
  | o :: rest =>
      let o' := fall dt o in
      if collides p o' then
        let '(r1, ev1) :=
          createExplosion (p_x p + p_width p / 2) (p_y p + p_height p / 2)
                          RED_VULN r in
        let ev2 := [onGameOver (Zfloor (scoreRef r1))] in
        let '(kept, r2, ev) := obstaclePass dt canvas p rest r1 in
        (kept, r2, ev1 ++ ev2 ++ ev)
      else if Rgtb (o_y o') (height canvas) then
        let r1 := set_scoreRef (scoreRef r + 10) r in
        let ev1 := [playScoreSound; onScoreUpdate (Zfloor (scoreRef r1))] in
        let '(kept, r2, ev) := obstaclePass dt canvas p rest r1 in
        (kept, r2, ev1 ++ ev)
      else
        let '(kept, r2, ev) := obstaclePass dt canvas p rest r in
        (o' :: kept, r2, ev)
  end.

(** *** [update] *)

Definition update (gameState : GameState) (dt : R) (r : Refs) : Refs * list Event :=
  let r := set_particlesRef (advanceParticles dt (particlesRef r)) r in
  if negb (GameState_eqb gameState PLAYING) then (r, []) else
  match canvasRef r with
  | None => (r, [])
  | Some canvas =>
      let p := easePlayer dt (playerRef r) in
      let r := set_playerRef p r in
      let r := set_currentFallSpeedRef (currentFallSpeedRef r + SPEED_INCREMENT * dt) r in
      let r := set_currentDifficultyRef
                 (currentDifficultyRef r + (SPEED_INCREMENT / 8) * dt) r in
      let r := set_spawnTimerRef (spawnTimerRef r - dt) r in
      let r := spawnStep canvas r in
      let '(kept, r, ev) := obstaclePass dt canvas p (obstaclesRef r) r in
      let r := set_obstaclesRef kept r in
      (set_scoreRef (scoreRef r + 0.015 * dt) r, ev)
  end.

(** *** [animate]

    The elapsed time handed to [update]:
    [dt = time - (lastTimeRef.current || time)], where a ref that still
    holds 0 is falsy. *)
Definition frameDt (lastTime time : R) : R :=
  time - (if Req_dec_T lastTime 0 then time else lastTime).

End Simulator.

(** ** App.tsx: the host shell *)

(** An integer-valued JavaScript number, or the NaN that [parseInt] returns
    on a string with no leading digits. *)
Inductive num : Type := Num (z : Z) | NaN.

(** [a > b] on such numbers: false as soon as [b] is NaN. *)
Definition num_gtb (a : Z) (b : num) : bool :=
  match b with
  | Num z => (z <? a)%Z
  | NaN => false
  end.

(** [Number.MAX_SAFE_INTEGER], and the integers every one of which is a
    number of its own. *)
Definition MAX_SAFE_INTEGER : Z := (2 ^ 53 - 1)%Z.

Definition safeInteger (z : Z) : Prop :=
  (- MAX_SAFE_INTEGER <= z <= MAX_SAFE_INTEGER)%Z.

(** [n.toString()] on a safe integer: its decimal digits, with a leading
    [-] when negative.  Beyond the safe integers a number is a rounded
    value, written in exponent notation from 1e21 on: there this is not
    the string of the runtime, and the statements that depend on the
    string stored are about safe integers. *)
Definition toString (z : Z) : string := NilZero.string_of_int (Z.to_int z).

(** The white space [parseInt] skips, among the code units below 256
    that a [string] holds: tab, line feed, vertical tab, form feed,
    carriage return, space and the no-break space U+00A0. *)
Definition isWhiteSpace (c : ascii) : bool :=
  let n := nat_of_ascii c in
  (Nat.eqb n 32 || Nat.eqb n 9 || Nat.eqb n 10 || Nat.eqb n 11
   || Nat.eqb n 12 || Nat.eqb n 13 || Nat.eqb n 160)%bool.

Fixpoint trimStart (s : string) : string :=
  match s with
  | String c s' => if isWhiteSpace c then trimStart s' else s
  | EmptyString => s
  end.

Definition digitValue (c : ascii) : option Z :=
  let n := nat_of_ascii c in
  if (Nat.leb 48 n && Nat.leb n 57)%bool then Some (Z.of_nat (n - 48)) else None.

(** The longest prefix of decimal digits, as a number; [acc] is the value
    of the digits read so far, [None] before the first one. *)
Fixpoint parseDigits (s : string) (acc : option Z) : option Z :=
  match s with
  | String c s' =>
      match digitValue c with
      | Some d =>
          parseDigits s' (Some (10 * match acc with Some a => a | None => 0 end + d)%Z)
      | None => acc
      end
  | EmptyString => acc
  end.

Definition num_of_digits (sign : Z) (o : option Z) : num :=
  match o with
  | Some z => Num (sign * z)
  | None => NaN
  end.

(** [parseInt(s, 10)]: leading white space, an optional sign, then the
    longest run of decimal digits; NaN when there is none.  The result is
    the integer the digits denote, which is the number JavaScript returns
    when it is a safe integer (beyond, JavaScript rounds it). *)
Definition parseInt (s : string) : num :=
  match trimStart s with
  | String "-"%char s' => num_of_digits (-1) (parseDigits s' None)
  | String "+"%char s' => num_of_digits 1 (parseDigits s' None)
  | s' => num_of_digits 1 (parseDigits s' None)
  end.

(** [localStorage]: the stored items, and the calls made on it, latest
    last. *)
Inductive StorageCall : Type :=
  | getItemCall (key : string)
  | setItemCall (key value : string).

Record Storage : Type := mkStorage {
  items : string -> option string;
  calls : list StorageCall
}.

Definition getItem (key : string) (ls : Storage) : option string * Storage :=
  (items ls key, mkStorage (items ls) (calls ls ++ [getItemCall key])).

Definition setItem (key value : string) (ls : Storage) : Storage :=
  mkStorage (fun k => if String.eqb k key then Some value else items ls k)
            (calls ls ++ [setItemCall key value]).

Definition HIGHSCORE_KEY : string := "crypto-runner-highscore".

(** What [useAppKitAccount] reports. *)
Record Wallet : Type := mkWallet {
  isConnected : bool;
  address : option string
}.

(** The state of the [App] component, with the storage it writes. *)
Record AppState : Type := mkApp {
  gameState : GameState;
  balance : option string;
  score : Z;
  highScore : num;
  localStorage : Storage
}.

(** A call of [open({ view: 'Connect' })]. *)
Inductive AppEvent : Type := openConnect.

(** The component as [useState] initialises it, over a given storage. *)
Definition initialApp (ls : Storage) : AppState :=
  {| gameState := START; balance := None; score := 0%Z;
     highScore := Num 0; localStorage := ls |}.

(** The effect with no dependencies: it runs once, when the component
    mounts.  [if (saved)] is false on [null] and on the empty string. *)
Definition loadHighScore (st : AppState) : AppState :=
  let '(saved, ls) := getItem HIGHSCORE_KEY (localStorage st) in
  match saved with
  | Some (String c s) =>
      mkApp (gameState st) (balance st) (score st) (parseInt (String c s)) ls
  | _ => mkApp (gameState st) (balance st) (score st) (highScore st) ls
  end.

Definition mountApp (ls : Storage) : AppState := loadHighScore (initialApp ls).

Definition setScore (n : Z) (st : AppState) : AppState :=
  mkApp (gameState st) (balance st) n (highScore st) (localStorage st).

Definition startGame (w : Wallet) (st : AppState) : AppState * list AppEvent :=
  if negb (isConnected w) then (st, [openConnect]) else
  (mkApp PLAYING (balance st) 0%Z (highScore st) (localStorage st), []).

Definition handleGameOver (finalScore : Z) (st : AppState) : AppState :=
  if num_gtb finalScore (highScore st) then
    mkApp GAMEOVER (balance st) finalScore (Num finalScore)
          (setItem HIGHSCORE_KEY (toString finalScore) (localStorage st))
  else
    mkApp GAMEOVER (balance st) finalScore (highScore st) (localStorage st).

(** The props the shell gives the canvas: [onGameOver={handleGameOver}] and
    [onScoreUpdate={setScore}]; the sound helpers do not reach the shell. *)
Definition deliver (e : Event) (st : AppState) : AppState :=
  match e with
  | onScoreUpdate n => setScore n st
  | onGameOver n => handleGameOver n st
  | _ => st
  end.

(** [handleGameOver] as the closure of the render [closure], run on the
    state [st] that the earlier calls of the same frame have left: the
    comparison reads the high score of the render, the updates apply to
    the pending state. *)
Definition handleGameOverFrom (closure : AppState) (finalScore : Z) (st : AppState)
  : AppState :=
  if num_gtb finalScore (highScore closure) then
    mkApp GAMEOVER (balance st) finalScore (Num finalScore)
          (setItem HIGHSCORE_KEY (toString finalScore) (localStorage st))
  else
    mkApp GAMEOVER (balance st) finalScore (highScore st) (localStorage st).

Definition deliverFrom (closure : AppState) (e : Event) (st : AppState) : AppState :=
  match e with
  | onScoreUpdate n => setScore n st
  | onGameOver n => handleGameOverFrom closure n st
  | _ => st
  end.

(** The calls of one frame, in call order: they all run in the closures
    of the render [st], before the shell renders again. *)
Definition deliverAll (evs : list Event) (st : AppState) : AppState :=
  fold_left (fun pending e => deliverFrom st e pending) evs st.

(** What can happen to the shell after it has mounted. *)
Inductive AppAction : Type :=
  | clickStart (w : Wallet)
  | canvasEvent (e : Event).

(** One action, and a run of them from a mounted shell. *)
Definition appStep (st : AppState) (a : AppAction) : AppState :=
  match a with
  | clickStart w => fst (startGame w st)
  | canvasEvent e => deliver e st
  end.

Definition appRun (acts : list AppAction) (st : AppState) : AppState :=
  fold_left appStep acts st.

(** ** The vocabulary of the statements *)

(** [sameGame r r']: the two states differ at most in the particles and
    in the position in the random oracle. *)
Definition sameGame (r r' : Refs) : Prop :=
  canvasRef r' = canvasRef r /\ playerRef r' = playerRef r /\
  obstaclesRef r' = obstaclesRef r /\ scoreRef r' = scoreRef r /\
  spawnTimerRef r' = spawnTimerRef r /\
  currentDifficultyRef r' = currentDifficultyRef r /\
  currentFallSpeedRef r' = currentFallSpeedRef r.

(** A particle as [createExplosion] pushes it. *)
Definition fresh (q : Particle) : Prop := pt_life q = 1.

(** The three outcomes of the filter callback on one obstacle, as the
    callback tests them: the collision first, then the bottom edge. *)
Definition hits (dt : R) (p : Player) (o : Obstacle) : bool :=
  collides p (fall dt o).

Definition passes (dt : R) (canvas : Canvas) (p : Player) (o : Obstacle) : bool :=
  negb (hits dt p o) && Rgtb (o_y (fall dt o)) (height canvas).

Definition stays (dt : R) (canvas : Canvas) (p : Player) (o : Obstacle) : bool :=
  negb (hits dt p o) && negb (Rgtb (o_y (fall dt o)) (height canvas)).

(** The arguments of the calls of a callback, in call order. *)
Definition gameOverCalls (ev : list Event) : list Z :=
  flat_map (fun e => match e with onGameOver n => [n] | _ => [] end) ev.

Definition scoreUpdateCalls (ev : list Event) : list Z :=
  flat_map (fun e => match e with onScoreUpdate n => [n] | _ => [] end) ev.

(** The refs a playing frame hands to [spawnStep]. *)
Definition beforeSpawn (dt : R) (r : Refs) : Refs :=
  set_spawnTimerRef (spawnTimerRef r - dt)
    (set_currentDifficultyRef (currentDifficultyRef r + (SPEED_INCREMENT / 8) * dt)
       (set_currentFallSpeedRef (currentFallSpeedRef r + SPEED_INCREMENT * dt)
          (set_playerRef (easePlayer dt (playerRef r))
             (set_particlesRef (advanceParticles dt (particlesRef r)) r)))).

(** The refs of a playing frame when the obstacle pass starts: particles
    advanced, player eased, speed and difficulty raised, timer counted
    down and, when it ran out, an obstacle spawned. *)
Definition beforePass (rnd : nat -> R) (canvas : Canvas) (dt : R) (r : Refs) : Refs :=
  spawnStep rnd canvas (beforeSpawn dt r).

(** A run that ends in a crash: on a canvas 800 by 600 with every draw
    equal to 1/2, the first playing frame after the reset, 1332.8 ms long
    (80 frames of 16.66 ms missed), spawns an obstacle 90 wide at x = 355
    and drops it onto the player. *)
Definition halves : nat -> R := fun _ => 1 / 2.

Definition afterCrash : Refs :=
  fst (update halves PLAYING 1332.8 (fst (resize 800 600 initialRefs))).

(** A particle of life 1, at rest. *)
Definition spark : Particle :=
  {| pt_x := 0; pt_y := 0; pt_vx := 0; pt_vy := 0; pt_life := 1;
     pt_maxLife := 1; pt_color := RED_VULN; pt_size := 2 |}.

(** ** Runs of the canvas component *)

(** What reaches the component between two resets: a steering intent or an
    animation frame, each under the [gameState] prop of that moment. *)
Inductive CanvasAction : Type :=
  | move (gs : GameState) (dir : Direction)
  | frame (gs : GameState) (dt : R).

Definition canvasStep (rnd : nat -> R) (st : Refs * list Event) (a : CanvasAction)
  : Refs * list Event :=
  let '(r', ev) :=
    match a with
    | move gs dir => handleMove gs dir (fst st)
    | frame gs dt => update rnd gs dt (fst st)
    end in
  (r', snd st ++ ev).

(** The refs after the actions, and the calls made during them. *)
Definition canvasRun (rnd : nat -> R) (acts : list CanvasAction) (r : Refs)
  : Refs * list Event :=
  fold_left (canvasStep rnd) acts (r, []).

(** The frame driver hands [update] the time elapsed since the last frame. *)
Definition elapsed (a : CanvasAction) : Prop :=
  match a with
  | frame _ dt => 0 <= dt
  | move _ _ => True
  end.

(** The simulated playing time of a run, in milliseconds. *)
Fixpoint playingTime (acts : list CanvasAction) : R :=
  match acts with
  | [] => 0
  | frame PLAYING dt :: rest => dt + playingTime rest
  | _ :: rest => playingTime rest
  end.

(** The invariant of a run on a canvas [W] wide: the player keeps its
    width of 48, and its x and target-x stay in [10, W - 48 - 10]. *)
Definition inPlayWidth (W : R) (r : Refs) : Prop :=
  (exists canvas, canvasRef r = Some canvas /\ width canvas = W) /\
  p_width (playerRef r) = 48 /\
  10 <= p_x (playerRef r) <= W - 48 - 10 /\
  10 <= p_targetX (playerRef r) <= W - 48 - 10.

(** A playing frame of the action does not spawn from [r]: the timer is
    still positive after the elapsed time is taken off. *)
Definition waits (a : CanvasAction) (r : Refs) : Prop :=
  match a with
  | frame PLAYING dt => 0 < spawnTimerRef r - dt
  | _ => True
  end.

(** No action of the run spawns an obstacle. *)
Fixpoint noSpawn (rnd : nat -> R) (acts : list CanvasAction) (st : Refs * list Event)
  : Prop :=
  match acts with
  | [] => True
  | a :: rest => waits a (fst st) /\ noSpawn rnd rest (canvasStep rnd st a)
  end.

(** The obstacles a frame lets past the bottom of the canvas: in the
    playing phase on a mounted canvas, the obstacles the pass receives
    that, once moved by their fall, do not overlap the eased player and
    have their y greater than the height of the canvas. *)
Definition dodgedInFrame (rnd : nat -> R) (gs : GameState) (dt : R) (r : Refs) : nat :=
  match gs, canvasRef r with
  | PLAYING, Some canvas =>
      List.length
        (filter (passes dt canvas (easePlayer dt (playerRef r)))
                (obstaclesRef (beforePass rnd canvas dt r)))
  | _, _ => 0%nat
  end.

(** The obstacles dodged during a run, frame by frame, from the state
    [st]. *)
Fixpoint dodged (rnd : nat -> R) (acts : list CanvasAction) (st : Refs * list Event)
  : nat :=
  match acts with
  | [] => 0%nat
  | a :: rest =>
      (match a with
       | frame gs dt => dodgedInFrame rnd gs dt (fst st)
       | move _ _ => 0
       end + dodged rnd rest (canvasStep rnd st a))%nat
  end.

(** Two obstacles over the player of a canvas 800 by 600 (the player is at
    x = 376, y = 360, 48 by 48), the spawn timer far from zero. *)
Definition wideBlock : Obstacle := mkObstacle 350 350 100 45 RED_VULN 4.1.
Definition fastBlock : Obstacle := mkObstacle 380 330 60 45 RED_VULN 6.2.

Definition crowded : Refs :=
  set_spawnTimerRef 1000
    (set_obstaclesRef [wideBlock; fastBlock] (fst (resize 800 600 initialRefs))).

(** The same state with the first obstacle alone. *)
Definition lonely : Refs :=
  set_spawnTimerRef 1000
    (set_obstaclesRef [wideBlock] (fst (resize 800 600 initialRefs))).

(** A storage with no item and no call made yet. *)
Definition emptyStorage : Storage := mkStorage (fun _ => None) [].

(** Reads, and the key a call is about. *)
Definition isGet (c : StorageCall) : bool :=
  match c with
  | getItemCall _ => true
  | setItemCall _ _ => false
  end.

Definition keyOf (c : StorageCall) : string :=
  match c with
  | getItemCall k => k
  | setItemCall k _ => k
  end.

(** The calls on the storage since the component mounted are the one read
    of the high-score key, then writes of that key only. *)
Definition readOnce (st : AppState) : Prop :=
  exists writes,
    calls (localStorage st) = getItemCall HIGHSCORE_KEY :: writes /\
    Forall (fun c => isGet c = false /\ keyOf c = HIGHSCORE_KEY) writes.

(** ** App.tsx: the rest of the shell *)

(** The first [n] characters of a string, and the string without them. *)
Fixpoint takeChars (n : nat) (s : string) : string :=
  match n, s with
  | S n', String c s' => String c (takeChars n' s')
  | _, _ => EmptyString
  end.

Fixpoint dropChars (n : nat) (s : string) : string :=
  match n, s with
  | S n', String _ s' => dropChars n' s'
  | _, _ => s
  end.

(** [addr.slice(0, 6)] and [addr.slice(-4)]: the first six characters, and
    the last four (the whole string when it has fewer). *)
Definition sliceHead (s : string) : string := takeChars 6 s.

Definition sliceTail (s : string) : string :=
  dropChars (String.length s - 4) s.

(** [truncateAddress]: the template string
    [`${addr.slice(0, 6)}...${addr.slice(-4)}`]. *)
Definition truncateAddress (addr : string) : string :=
  (sliceHead addr ++ "..." ++ sliceTail addr)%string.

(** The final scores the canvas hands to the shell during the actions, in
    order. *)
Fixpoint finalScores (acts : list AppAction) : list Z :=
  match acts with
  | [] => []
  | canvasEvent (onGameOver n) :: rest => n :: finalScores rest
  | _ :: rest => finalScores rest
  end.

(** A click on a start button with a wallet connected. *)
Definition connectedClick (a : AppAction) : bool :=
  match a with
  | clickStart w => isConnected w
  | canvasEvent _ => false
  end.

(** What a new session finds: the items of the storage, no call made. *)
Definition reload (st : AppState) : Storage :=
  mkStorage (items (localStorage st)) [].

(** ** CryptoRunnerCanvas.tsx: the rest of the component *)

(** The tilt of the player sprite in [draw]:
    [Math.max(-0.25, Math.min(0.25, dx * 0.008))] with
    [dx = p.targetX - p.x]. *)
Definition tilt (p : Player) : R :=
  let dx := p_targetX p - p_x p in
  Rmax (-0.25) (Rmin 0.25 (dx * 0.008)).

(** The elapsed times [animate] computes on successive calls at the given
    timestamps, [lastTimeRef.current] holding [lastTime] before the first:
    each call stores its timestamp in the ref. *)
Fixpoint frameDts (lastTime : R) (times : list R) : list R :=
  match times with
  | [] => []
  | time :: rest => frameDt lastTime time :: frameDts time rest
  end.

(** [key.toLowerCase()] on the letters A to Z. *)
Definition toLowerChar (c : ascii) : ascii :=
  let n := nat_of_ascii c in
  if (Nat.leb 65 n && Nat.leb n 90)%bool then ascii_of_nat (n + 32) else c.

Fixpoint toLowerCase (s : string) : string :=
  match s with
  | EmptyString => EmptyString
  | String c s' => String (toLowerChar c) (toLowerCase s')
  end.

(** [handleKeyDown], on the [key] of the event. *)
Definition handleKeyDown (gameState : GameState) (eventKey : string) (r : Refs)
  : Refs * list Event :=
  if negb (GameState_eqb gameState PLAYING) then (r, []) else
  let key := toLowerCase eventKey in
  if (String.eqb key "arrowleft" || String.eqb key "a")%bool then
    handleMove gameState Left r
  else if (String.eqb key "arrowright" || String.eqb key "d")%bool then
    handleMove gameState Right r
  else (r, []).

(** The sum of a list of elapsed times. *)
Fixpoint total (dts : list R) : R :=
  match dts with
  | [] => 0
  | dt :: rest => dt + total rest
  end.

(** Timestamps that never go back. *)
Fixpoint ascending (times : list R) : Prop :=
  match times with
  | a :: (b :: _) as rest => a <= b /\ ascending rest
  | _ => True
  end.

(** The particle pass of successive calls of [update]. *)
Definition advanceAll (dts : list R) (ps : list Particle) : list Particle :=
  fold_left (fun ps dt => advanceParticles dt ps) dts ps.

(** An action outside the playing phase; an action that is a frame. *)
Definition idle (a : CanvasAction) : bool :=
  match a with
  | move gs _ => negb (GameState_eqb gs PLAYING)
  | frame gs _ => negb (GameState_eqb gs PLAYING)
  end.

Definition isFrame (a : CanvasAction) : bool :=
  match a with
  | frame _ _ => true
  | move _ _ => false
  end.

(** The elapsed times of the frames of a run, in any phase. *)
Fixpoint elapsedTimes (acts : list CanvasAction) : list R :=
  match acts with
  | [] => []
  | frame _ dt :: rest => dt :: elapsedTimes rest
  | move _ _ :: rest => elapsedTimes rest
  end.

(** What [createExplosion] promises of a particle pushed at (x, y) in a
    colour: where it is, that it is new, and how fast and how big it can
    be. *)
Definition burstParticle (x y : R) (color : string) (q : Particle) : Prop :=
  pt_x q = x /\ pt_y q = y /\ pt_color q = color /\
  pt_life q = 1 /\ pt_maxLife q = 1 /\
  2 <= pt_size q < 6 /\
  4 <= pt_vx q * pt_vx q + pt_vy q * pt_vy q < 64.

(** An obstacle as the simulator makes and keeps them on a canvas [W]
    wide while the base fall speed is [base]: red, 45 high, 50 to 130
    wide, spawned at y = -100 and falling since, at a speed between the
    initial base speed and the current one plus the jitter, and inside the
    canvas horizontally when the canvas is at least 130 wide. *)
Definition wellFormed (W base : R) (o : Obstacle) : Prop :=
  o_color o = RED_VULN /\ o_height o = 45 /\
  50 <= o_width o < 130 /\
  -100 <= o_y o /\
  INITIAL_FALL_SPEED <= o_speed o < base + 2.5 /\
  (130 <= W -> 0 <= o_x o /\ o_x o + o_width o <= W).

(** ** CryptoRunnerCanvas.tsx: the star field *)

(** [a % b] on numbers: [a] minus [b] times the quotient truncated towards
    zero. *)
Definition truncate (x : R) : Z := if Rlt_dec x 0 then Zceil x else Zfloor x.

Definition jsRem (a b : R) : R := a - b * IZR (truncate (a / b)).

(** An element of [starsRef.current]. *)
Record Star : Type := mkStar {
  st_x : R;
  st_y : R;
  st_size : R
}.

(** The star pushed by [resize] and [initGame]: three draws, in the order
    x, y, size. *)
Definition makeStar (rnd : nat -> R) (canvas : Canvas) (n : nat) : Star :=
  {| st_x := rnd n * width canvas;
     st_y := rnd (n + 1)%nat * height canvas;
     st_size := 0.5 + rnd (n + 2)%nat * 1.5 |}.

(** [draw]: [starOffset = (scoreRef.current * 0.5) % canvas.height] and,
    for each star, [sy = (star.y + starOffset) % canvas.height]. *)
Definition starOffset (canvas : Canvas) (score : R) : R :=
  jsRem (score * 0.5) (height canvas).

Definition starScreenY (canvas : Canvas) (score : R) (star : Star) : R :=
  jsRem (st_y star + starOffset canvas score) (height canvas).

(** * Properties *)

(** ** Comparisons and the decimal strings *)

Lemma Rltb_true (a b : R) : Rltb a b = true <-> a < b.
Proof. unfold Rltb. destruct (Rlt_dec a b); split; intros; congruence || assumption. Qed.

Lemma Rltb_false (a b : R) : Rltb a b = false <-> b <= a.
Proof.
  unfold Rltb. destruct (Rlt_dec a b); split; intros; try congruence; lra.
Qed.

Lemma Rleb_true (a b : R) : Rleb a b = true <-> a <= b.
Proof. unfold Rleb. destruct (Rle_dec a b); split; intros; congruence || assumption. Qed.

Lemma Rleb_false (a b : R) : Rleb a b = false <-> b < a.
Proof.
  unfold Rleb. destruct (Rle_dec a b); split; intros; try congruence; lra.
Qed.

Example parseInt_plain : parseInt "1250" = Num 1250.
Proof. reflexivity. Qed.

Example parseInt_prefix : parseInt "  -42px" = Num (-42).
Proof. reflexivity. Qed.

Example parseInt_garbage : parseInt "best" = NaN.
Proof. reflexivity. Qed.

Example toString_1250 : toString 1250 = "1250"%string.
Proof. reflexivity. Qed.

Example toString_neg : toString (-7) = "-7"%string.
Proof. reflexivity. Qed.

Example toString_zero : toString 0 = "0"%string.
Proof. reflexivity. Qed.

(** What [handleGameOver] writes is read back by the load of the next
    session. *)
Example stored_record_is_read_back :
  highScore (mountApp (mkStorage
    (items (localStorage (handleGameOver 1250 (initialApp (mkStorage (fun _ => None) []))))) []))
  = Num 1250.
Proof. reflexivity. Qed.

(** ** The easing factor *)

Lemma ln_001_neg : ln 0.001 < 0.
Proof.
  rewrite <- ln_1. apply ln_increasing; lra.
Qed.

Lemma pow_001_pos (t : R) : 0 < Rpower 0.001 t.
Proof. unfold Rpower. apply exp_pos. Qed.

Lemma pow_001_le_1 (t : R) : 0 <= t -> Rpower 0.001 t <= 1.
Proof.
  intros Ht. unfold Rpower. rewrite <- exp_0.
  destruct (Req_dec t 0) as [-> | Hne].
  - rewrite Rmult_0_l. lra.
  - left. apply exp_increasing.
    pose proof ln_001_neg. nra.
Qed.

Lemma pow_001_split (a b : R) :
  Rpower 0.001 ((a + b) / 1000) = Rpower 0.001 (a / 1000) * Rpower 0.001 (b / 1000).
Proof.
  rewrite <- Rpower_plus. f_equal. lra.
Qed.

Lemma easePlayer_compose (dt1 dt2 : R) (p : Player) :
  easePlayer dt2 (easePlayer dt1 p) = easePlayer (dt1 + dt2) p.
Proof.
  unfold easePlayer; cbn [p_x p_y p_width p_height p_color p_targetX].
  rewrite pow_001_split. f_equal. ring.
Qed.

Lemma easePlayer_between (dt lo hi : R) (p : Player) :
  0 <= dt ->
  lo <= p_x p <= hi -> lo <= p_targetX p <= hi ->
  lo <= p_x (easePlayer dt p) <= hi.
Proof.
  intros Hdt Hx Ht. unfold easePlayer; cbn [p_x].
  pose proof (pow_001_pos (dt / 1000)) as Hpos.
  assert (Hle : Rpower 0.001 (dt / 1000) <= 1) by (apply pow_001_le_1; lra).
  set (k := Rpower 0.001 (dt / 1000)) in *.
  split; nra.
Qed.

(** ** The particle pass *)

Lemma advanceParticle_life (dt : R) (p : Particle) :
  pt_life (advanceParticle dt p) = pt_life p - 0.02 * (dt / 16.66).
Proof. reflexivity. Qed.

Lemma particleAlive_true (p : Particle) : particleAlive p = true <-> 0 < pt_life p.
Proof. unfold particleAlive, Rgtb. apply Rltb_true. Qed.

Lemma advanceParticles_alive (dt : R) (ps : list Particle) (q : Particle) :
  In q (advanceParticles dt ps) -> 0 < pt_life q.
Proof.
  unfold advanceParticles. intros H. apply filter_In in H.
  apply particleAlive_true, H.
Qed.

Lemma advanceParticles_kept (dt : R) (ps : list Particle) (p : Particle) :
  In p ps ->
  (In (advanceParticle dt p) (advanceParticles dt ps)
   <-> 0 < pt_life (advanceParticle dt p)).
Proof.
  intros Hin. unfold advanceParticles. rewrite filter_In, particleAlive_true.
  split; [tauto |]. intros H; split; [now apply in_map | exact H].
Qed.

(** ** What the explosion and the obstacle pass leave alone *)

Lemma sameGame_refl (r : Refs) : sameGame r r.
Proof. repeat split. Qed.

Lemma sameGame_trans (a b c : Refs) : sameGame a b -> sameGame b c -> sameGame a c.
Proof.
  unfold sameGame. intros H1 H2.
  destruct H1 as (?&?&?&?&?&?&?), H2 as (?&?&?&?&?&?&?).
  repeat split; congruence.
Qed.

Lemma explosionLoop_spec (rnd : nat -> R) (todo : nat) (x y : R) (c : string) :
  forall r,
    sameGame r (explosionLoop rnd todo x y c r) /\
    exists emitted,
      particlesRef (explosionLoop rnd todo x y c r) = particlesRef r ++ emitted /\
      List.length emitted = todo /\ Forall fresh emitted.
Proof.
  induction todo as [| n IH]; intros r; cbn [explosionLoop].
  - split; [apply sameGame_refl |]. exists []. rewrite app_nil_r. auto.
  - match goal with |- context [explosionLoop rnd n x y c ?r1] =>
      destruct (IH r1) as (Hs & em & Hp & Hl & Hf) end.
    split.
    + eapply sameGame_trans; [| exact Hs]. repeat split.
    + exists (explosionParticle rnd x y c (randomCalls r) :: em).
      rewrite Hp. cbn [set_randomCalls set_particlesRef particlesRef].
      rewrite <- app_assoc. cbn [app List.length]. repeat split; auto.
      constructor; [| exact Hf]. unfold fresh, explosionParticle; cbn. lra.
Qed.

(** ** The obstacle pass, obstacle by obstacle *)

Lemma gameOverCalls_app (a b : list Event) :
  gameOverCalls (a ++ b) = gameOverCalls a ++ gameOverCalls b.
Proof. apply flat_map_app. Qed.

Lemma scoreUpdateCalls_app (a b : list Event) :
  scoreUpdateCalls (a ++ b) = scoreUpdateCalls a ++ scoreUpdateCalls b.
Proof. apply flat_map_app. Qed.

Section ObstaclePass.

Variable rnd : nat -> R.
Variables (dt : R) (canvas : Canvas) (p : Player).

Let pass := obstaclePass rnd dt canvas p.

Lemma pass_hit (o : Obstacle) (rest : list Obstacle) (r : Refs) :
  hits dt p o = true ->
  pass (o :: rest) r =
    (let r1 := explosionLoop rnd 25 (p_x p + p_width p / 2)
                             (p_y p + p_height p / 2) RED_VULN r in
     let '(kept, r2, ev) := pass rest r1 in
     (kept, r2, playCrashSound :: onGameOver (Zfloor (scoreRef r1)) :: ev)).
Proof.
  unfold hits, pass. intros H. cbn [obstaclePass]. rewrite H.
  unfold createExplosion.
  destruct (obstaclePass rnd dt canvas p rest _) as [[k r2] e]. reflexivity.
Qed.

Lemma pass_passes (o : Obstacle) (rest : list Obstacle) (r : Refs) :
  passes dt canvas p o = true ->
  pass (o :: rest) r =
    (let r1 := set_scoreRef (scoreRef r + 10) r in
     let '(kept, r2, ev) := pass rest r1 in
     (kept, r2, playScoreSound :: onScoreUpdate (Zfloor (scoreRef r + 10)) :: ev)).
Proof.
  unfold passes, hits, pass. intros H. apply andb_prop in H as [H1 H2].
  apply negb_true_iff in H1. cbn [obstaclePass]. rewrite H1, H2.
  destruct (obstaclePass rnd dt canvas p rest _) as [[k r2] e]. reflexivity.
Qed.

Lemma pass_stays (o : Obstacle) (rest : list Obstacle) (r : Refs) :
  stays dt canvas p o = true ->
  pass (o :: rest) r =
    (let '(kept, r2, ev) := pass rest r in (fall dt o :: kept, r2, ev)).
Proof.
  unfold stays, hits, pass. intros H. apply andb_prop in H as [H1 H2].
  apply negb_true_iff in H1. apply negb_true_iff in H2.
  cbn [obstaclePass]. rewrite H1, H2. reflexivity.
Qed.

Lemma outcome_cases (o : Obstacle) :
  (hits dt p o = true /\ passes dt canvas p o = false /\ stays dt canvas p o = false) \/
  (hits dt p o = false /\ passes dt canvas p o = true /\ stays dt canvas p o = false) \/
  (hits dt p o = false /\ passes dt canvas p o = false /\ stays dt canvas p o = true).
Proof.
  unfold passes, stays.
  destruct (hits dt p o), (Rgtb (o_y (fall dt o)) (height canvas)); cbn; tauto.
Qed.

(** Everything the pass does, in terms of the three outcomes. *)
Lemma pass_spec (obs : list Obstacle) :
  forall r,
    let res := pass obs r in
    let r' := snd (fst res) in
    fst (fst res) = map (fall dt) (filter (stays dt canvas p) obs) /\
    canvasRef r' = canvasRef r /\ playerRef r' = playerRef r /\
    obstaclesRef r' = obstaclesRef r /\
    spawnTimerRef r' = spawnTimerRef r /\
    currentDifficultyRef r' = currentDifficultyRef r /\
    currentFallSpeedRef r' = currentFallSpeedRef r /\
    scoreRef r' =
      scoreRef r + 10 * INR (List.length (filter (passes dt canvas p) obs)) /\
    (exists emitted,
        particlesRef r' = particlesRef r ++ emitted /\
        List.length emitted = (25 * List.length (filter (hits dt p) obs))%nat /\
        Forall fresh emitted) /\
    List.length (gameOverCalls (snd res)) = List.length (filter (hits dt p) obs) /\
    List.length (scoreUpdateCalls (snd res)) =
      List.length (filter (passes dt canvas p) obs).
Proof.
  induction obs as [| o rest IH]; intros r.
  - cbn. repeat split; try lra. exists []. rewrite app_nil_r. auto.
  - destruct (outcome_cases o) as [(Hh & Hp & Hs) | [(Hh & Hp & Hs) | (Hh & Hp & Hs)]];
      cbn [filter]; rewrite Hh, Hp, Hs.
    + cbv zeta. rewrite (pass_hit o rest r Hh). cbv zeta.
      set (r1 := explosionLoop rnd 25 _ _ RED_VULN r).
      destruct (explosionLoop_spec rnd 25 (p_x p + p_width p / 2)
                  (p_y p + p_height p / 2) RED_VULN r)
        as ((E1 & E2 & E3 & E4 & E5 & E6 & E7) & em & Ep & El & Ef).
      fold r1 in E1, E2, E3, E4, E5, E6, E7, Ep.
      specialize (IH r1). cbv zeta in IH.
      destruct (pass rest r1) as [[k r2] e].
      cbn [fst snd] in *.
      destruct IH as (I1 & I2 & I3 & I4 & I5 & I6 & I7 & I8 & (em' & Ip & Il & If) & I9 & I10).
      repeat split; try congruence.
      * exists (em ++ em'). rewrite Ip, Ep, <- app_assoc. repeat split.
        -- rewrite length_app, El, Il. cbn [List.length]. lia.
        -- apply Forall_app; auto.
      * cbn [gameOverCalls flat_map app List.length]. fold (gameOverCalls e).
        now rewrite I9.
      * cbn [scoreUpdateCalls flat_map app]. fold (scoreUpdateCalls e). exact I10.
    + cbv zeta. rewrite (pass_passes o rest r Hp). cbv zeta.
      specialize (IH (set_scoreRef (scoreRef r + 10) r)). cbv zeta in IH.
      destruct (pass rest (set_scoreRef (scoreRef r + 10) r)) as [[k r2] e].
      cbn [fst snd] in *.
      destruct IH as (I1 & I2 & I3 & I4 & I5 & I6 & I7 & I8 & (em' & Ip & Il & If) & I9 & I10).
      cbn [set_scoreRef canvasRef playerRef obstaclesRef spawnTimerRef
           currentDifficultyRef currentFallSpeedRef scoreRef particlesRef] in *.
      repeat split; try congruence.
      * rewrite I8. cbn [List.length]. rewrite S_INR. lra.
      * exists em'. auto.
      * cbn [gameOverCalls flat_map app]. fold (gameOverCalls e). exact I9.
      * cbn [scoreUpdateCalls flat_map app List.length]. fold (scoreUpdateCalls e).
        now rewrite I10.
    + cbv zeta. rewrite (pass_stays o rest r Hs).
      specialize (IH r). cbv zeta in IH.
      destruct (pass rest r) as [[k r2] e].
      cbn [fst snd] in *.
      destruct IH as (I1 & I2 & I3 & I4 & I5 & I6 & I7 & I8 & (em' & Ip & Il & If) & I9 & I10).
      repeat split; try congruence.
      * cbn [map]. now rewrite I1.
      * exists em'. auto.
Qed.

End ObstaclePass.

(** ** One call of [update] *)

Lemma spawnStep_frame (rnd : nat -> R) (canvas : Canvas) (r : Refs) :
  canvasRef (spawnStep rnd canvas r) = canvasRef r /\
  playerRef (spawnStep rnd canvas r) = playerRef r /\
  particlesRef (spawnStep rnd canvas r) = particlesRef r /\
  scoreRef (spawnStep rnd canvas r) = scoreRef r /\
  currentDifficultyRef (spawnStep rnd canvas r) = currentDifficultyRef r /\
  currentFallSpeedRef (spawnStep rnd canvas r) = currentFallSpeedRef r.
Proof.
  unfold spawnStep. destruct (Rleb (spawnTimerRef r) 0); repeat split.
Qed.

Lemma beforePass_frame (rnd : nat -> R) (canvas : Canvas) (dt : R) (r : Refs) :
  canvasRef (beforePass rnd canvas dt r) = canvasRef r /\
  playerRef (beforePass rnd canvas dt r) = easePlayer dt (playerRef r) /\
  particlesRef (beforePass rnd canvas dt r) = advanceParticles dt (particlesRef r) /\
  scoreRef (beforePass rnd canvas dt r) = scoreRef r /\
  currentDifficultyRef (beforePass rnd canvas dt r) =
    currentDifficultyRef r + (SPEED_INCREMENT / 8) * dt /\
  currentFallSpeedRef (beforePass rnd canvas dt r) =
    currentFallSpeedRef r + SPEED_INCREMENT * dt.
Proof.
  unfold beforePass.
  match goal with |- context [spawnStep rnd canvas ?r0] =>
    destruct (spawnStep_frame rnd canvas r0) as (-> & -> & -> & -> & -> & ->) end.
  repeat split.
Qed.

Lemma update_playing (rnd : nat -> R) (dt : R) (r : Refs) (canvas : Canvas) :
  canvasRef r = Some canvas ->
  update rnd PLAYING dt r =
    (let rb := beforePass rnd canvas dt r in
     let '(kept, r2, ev) :=
       obstaclePass rnd dt canvas (playerRef rb) (obstaclesRef rb) rb in
     (set_scoreRef (scoreRef r2 + 0.015 * dt) (set_obstaclesRef kept r2), ev)).
Proof.
  intros Hc. cbv zeta.
  destruct (beforePass_frame rnd canvas dt r) as (_ & -> & _).
  unfold update. cbn [GameState_eqb negb set_particlesRef canvasRef].
  rewrite Hc. cbv zeta.
  change (spawnStep rnd canvas _) with (beforePass rnd canvas dt r).
  destruct (obstaclePass rnd dt canvas _ _ _) as [[k r2] e]. reflexivity.
Qed.

Lemma update_idle (rnd : nat -> R) (gs : GameState) (dt : R) (r : Refs) :
  gs <> PLAYING \/ canvasRef r = None ->
  update rnd gs dt r = (set_particlesRef (advanceParticles dt (particlesRef r)) r, []).
Proof.
  intros [Hgs | Hc]; unfold update.
  - destruct gs; try congruence; reflexivity.
  - cbn [set_particlesRef canvasRef]. rewrite Hc.
    destruct (negb (GameState_eqb gs PLAYING)); reflexivity.
Qed.

(** The outcome of a playing frame on a mounted canvas, field by field. *)
Lemma update_spec (rnd : nat -> R) (dt : R) (r : Refs) (canvas : Canvas) :
  canvasRef r = Some canvas ->
  let rb := beforePass rnd canvas dt r in
  let p := easePlayer dt (playerRef r) in
  let obs := obstaclesRef rb in
  let res := update rnd PLAYING dt r in
  let r' := fst res in
  canvasRef r' = Some canvas /\
  playerRef r' = p /\
  obstaclesRef r' = map (fall dt) (filter (stays dt canvas p) obs) /\
  spawnTimerRef r' = spawnTimerRef rb /\
  currentDifficultyRef r' = currentDifficultyRef r + (SPEED_INCREMENT / 8) * dt /\
  currentFallSpeedRef r' = currentFallSpeedRef r + SPEED_INCREMENT * dt /\
  scoreRef r' =
    scoreRef r + 10 * INR (List.length (filter (passes dt canvas p) obs))
    + 0.015 * dt /\
  (exists emitted,
      particlesRef r' = advanceParticles dt (particlesRef r) ++ emitted /\
      List.length emitted = (25 * List.length (filter (hits dt p) obs))%nat /\
      Forall fresh emitted) /\
  List.length (gameOverCalls (snd res)) = List.length (filter (hits dt p) obs) /\
  List.length (scoreUpdateCalls (snd res)) =
    List.length (filter (passes dt canvas p) obs).
Proof.
  intros Hc. cbv zeta. rewrite (update_playing rnd dt r canvas Hc). cbv zeta.
  destruct (beforePass_frame rnd canvas dt r) as (B1 & B2 & B3 & B4 & B5 & B6).
  rewrite B2.
  pose proof (pass_spec rnd dt canvas (easePlayer dt (playerRef r))
                (obstaclesRef (beforePass rnd canvas dt r))
                (beforePass rnd canvas dt r)) as P.
  cbv zeta in P.
  destruct (obstaclePass rnd dt canvas _ _ _) as [[k r2] e].
  cbn [fst snd] in *.
  destruct P as (P1 & P2 & P3 & P4 & P5 & P6 & P7 & P8 & (em & Pp & Pl & Pf) & P9 & P10).
  cbn [set_scoreRef set_obstaclesRef canvasRef playerRef obstaclesRef spawnTimerRef
       currentDifficultyRef currentFallSpeedRef scoreRef particlesRef].
  repeat split; try congruence.
  exists em. rewrite Pp, B3. auto.
Qed.

Lemma update_canvasRef (rnd : nat -> R) (gs : GameState) (dt : R) (r : Refs) :
  canvasRef (fst (update rnd gs dt r)) = canvasRef r.
Proof.
  destruct gs.
  1,3: rewrite update_idle by (left; discriminate); reflexivity.
  destruct (canvasRef r) as [canvas |] eqn:Hc.
  - destruct (update_spec rnd dt r canvas Hc) as (H & _). exact H.
  - rewrite update_idle by (right; exact Hc). exact Hc.
Qed.

Lemma update_playerRef (rnd : nat -> R) (gs : GameState) (dt : R) (r : Refs) :
  playerRef (fst (update rnd gs dt r)) =
    match gs, canvasRef r with
    | PLAYING, Some _ => easePlayer dt (playerRef r)
    | _, _ => playerRef r
    end.
Proof.
  destruct gs.
  1,3: rewrite update_idle by (left; discriminate); reflexivity.
  destruct (canvasRef r) as [canvas |] eqn:Hc.
  - destruct (update_spec rnd dt r canvas Hc) as (_ & H & _). exact H.
  - rewrite update_idle by (right; exact Hc). reflexivity.
Qed.

Lemma update_particles (rnd : nat -> R) (gs : GameState) (dt : R) (r : Refs) :
  exists emitted,
    particlesRef (fst (update rnd gs dt r)) =
      advanceParticles dt (particlesRef r) ++ emitted /\
    Forall fresh emitted /\
    (gs <> PLAYING -> emitted = []).
Proof.
  destruct gs.
  1,3: rewrite update_idle by (left; discriminate); exists [];
       cbn [fst set_particlesRef particlesRef]; rewrite app_nil_r; auto.
  destruct (canvasRef r) as [canvas |] eqn:Hc.
  - destruct (update_spec rnd dt r canvas Hc)
      as (_ & _ & _ & _ & _ & _ & _ & (em & Hp & _ & Hf) & _).
    exists em. repeat split; auto. congruence.
  - rewrite update_idle by (right; exact Hc). exists [].
    cbn [fst set_particlesRef particlesRef]. rewrite app_nil_r. auto.
Qed.

(** ** Spawning *)

Lemma spawnStep_spawns (rnd : nat -> R) (canvas : Canvas) (r : Refs) :
  spawnTimerRef r <= 0 ->
  spawnStep rnd canvas r =
    set_spawnTimerRef (Rmax 350 (1000 / currentDifficultyRef r))
      (set_randomCalls (randomCalls r + 3)
         (set_obstaclesRef (obstaclesRef r ++ [spawnObstacle rnd canvas r]) r)).
Proof.
  intros H. unfold spawnStep. now rewrite (proj2 (Rleb_true _ _) H).
Qed.

Lemma spawnStep_waits (rnd : nat -> R) (canvas : Canvas) (r : Refs) :
  0 < spawnTimerRef r -> spawnStep rnd canvas r = r.
Proof.
  intros H. unfold spawnStep. now rewrite (proj2 (Rleb_false _ _) H).
Qed.

Lemma beforePass_spawns (rnd : nat -> R) (canvas : Canvas) (dt : R) (r : Refs) :
  spawnTimerRef r - dt <= 0 ->
  obstaclesRef (beforePass rnd canvas dt r) =
    obstaclesRef r ++ [spawnObstacle rnd canvas (beforeSpawn dt r)] /\
  spawnTimerRef (beforePass rnd canvas dt r) =
    Rmax 350 (1000 / (currentDifficultyRef r + (SPEED_INCREMENT / 8) * dt)).
Proof.
  intros H. unfold beforePass.
  rewrite spawnStep_spawns by exact H. split; reflexivity.
Qed.

Lemma beforePass_waits (rnd : nat -> R) (canvas : Canvas) (dt : R) (r : Refs) :
  0 < spawnTimerRef r - dt ->
  obstaclesRef (beforePass rnd canvas dt r) = obstaclesRef r /\
  spawnTimerRef (beforePass rnd canvas dt r) = spawnTimerRef r - dt.
Proof.
  intros H. unfold beforePass.
  rewrite spawnStep_waits by exact H. split; reflexivity.
Qed.

(** ** C5: the particle pass *)

(** The first call of the frame driver, with the time ref still at 0,
    hands [update] an elapsed time of 0. *)
Example first_frame_has_no_elapsed_time (time : R) : frameDt 0 time = 0.
Proof.
  unfold frameDt. destruct (Req_dec_T 0 0) as [_ | Hne]; [lra | now contradiction Hne].
Qed.

Lemma afterCrash_has_burst :
  canvasRef afterCrash = Some (mkCanvas 800 600) /\
  exists q rest, particlesRef afterCrash = q :: rest /\ pt_life q = 1.
Proof.
  unfold afterCrash.
  assert (Hc : canvasRef (fst (resize 800 600 initialRefs)) = Some (mkCanvas 800 600))
    by reflexivity.
  destruct (update_spec halves 1332.8 _ (mkCanvas 800 600) Hc)
    as (Hcv & _ & _ & _ & _ & _ & _ & (em & Hp & Hl & Hf) & _).
  split; [exact Hcv |].
  assert (Hs : spawnTimerRef (fst (resize 800 600 initialRefs)) - 1332.8 <= 0)
    by (cbn; lra).
  destruct (beforePass_spawns halves (mkCanvas 800 600) 1332.8 _ Hs) as (Ho & _).
  rewrite Ho in Hl.
  change (obstaclesRef (fst (resize 800 600 initialRefs))) with (@nil Obstacle) in Hl.
  cbn [app filter] in Hl.
  assert (Hhit : hits 1332.8
            (easePlayer 1332.8 (playerRef (fst (resize 800 600 initialRefs))))
            (spawnObstacle halves (mkCanvas 800 600)
               (beforeSpawn 1332.8 (fst (resize 800 600 initialRefs)))) = true).
  { unfold hits, collides, Rgtb. rewrite !andb_true_iff, !Rltb_true.
    cbn. unfold halves, INITIAL_FALL_SPEED, SPEED_INCREMENT. repeat split; lra. }
  rewrite Hhit in Hl. rewrite Hp.
  change (particlesRef (fst (resize 800 600 initialRefs))) with (@nil Particle).
  cbn [advanceParticles map filter app].
  destruct em as [| q rest]; [discriminate Hl |].
  exists q, rest. split; [reflexivity |].
  apply Forall_inv in Hf. exact Hf.
Qed.

(** A frame callback that runs at the timestamp the time ref already
    holds hands [update] an elapsed time of 0. *)
Lemma same_timestamp_has_no_elapsed_time (time : R) : frameDt time time = 0.
Proof.
  unfold frameDt. destruct (Req_dec_T time 0); lra.
Qed.

(** C5, as stated, fails on a call with no elapsed time: after the crash
    of [afterCrash], on the mounted canvas and with the burst of the
    explosion in the state, a call of [update] with the elapsed time of a
    repeated timestamp keeps the first particle of the burst with its life
    unchanged, so its life did not strictly decrease. *)
Lemma particle_life_not_decreased_at_dt_0 :
  canvasRef afterCrash = Some (mkCanvas 800 600) /\
  exists q,
    In q (particlesRef afterCrash) /\
    In (advanceParticle (frameDt 2000 2000) q)
       (particlesRef (fst (update halves GAMEOVER (frameDt 2000 2000) afterCrash))) /\
    ~ pt_life (advanceParticle (frameDt 2000 2000) q) < pt_life q.
Proof.
  destruct afterCrash_has_burst as (Hc & q & rest & Hp & Hlife).
  split; [exact Hc |]. exists q.
  rewrite same_timestamp_has_no_elapsed_time.
  rewrite update_idle by (left; discriminate).
  cbn [fst set_particlesRef particlesRef].
  assert (Hl : pt_life (advanceParticle 0 q) = 1)
    by (rewrite advanceParticle_life, Hlife; lra).
  assert (Hin : In q (particlesRef afterCrash)) by (rewrite Hp; now left).
  split; [exact Hin | split].
  - apply advanceParticles_kept; [exact Hin | lra].
  - rewrite Hl, Hlife. lra.
Qed.

(** C5 (amended): on every call of [update], in every phase and whatever
    the elapsed time, the particles of the state are exactly the advanced
    old particles that still have a positive life, followed by the ones
    emitted in this call (none outside the playing phase); the life of
    every old particle goes down by [0.02 * dt / 16.66], strictly when
    the elapsed time is positive and not at all when it is 0; an advanced
    particle is kept exactly when its life after the decrement is
    positive, that is removed exactly when it is at most 0; and no
    particle with a non-positive life is left in the state. *)
Theorem particles_advance_and_expire
    (rnd : nat -> R) (gs : GameState) (dt : R) (r : Refs) :
  (exists emitted,
      particlesRef (fst (update rnd gs dt r)) =
        advanceParticles dt (particlesRef r) ++ emitted /\
      (gs <> PLAYING -> emitted = [])) /\
  (forall p, In p (particlesRef r) ->
      pt_life (advanceParticle dt p) = pt_life p - 0.02 * (dt / 16.66) /\
      (0 < dt -> pt_life (advanceParticle dt p) < pt_life p) /\
      (dt = 0 -> pt_life (advanceParticle dt p) = pt_life p) /\
      (In (advanceParticle dt p) (advanceParticles dt (particlesRef r))
       <-> 0 < pt_life (advanceParticle dt p)) /\
      (~ In (advanceParticle dt p) (advanceParticles dt (particlesRef r))
       <-> pt_life (advanceParticle dt p) <= 0)) /\
  (forall q, In q (particlesRef (fst (update rnd gs dt r))) -> 0 < pt_life q).
Proof.
  destruct (update_particles rnd gs dt r) as (em & Hp & Hf & Hidle).
  split; [| split].
  - exists em. auto.
  - intros p Hin. pose proof (advanceParticles_kept dt (particlesRef r) p Hin) as Hk.
    split; [reflexivity | split; [| split; [| split; [exact Hk |]]]].
    + intros Hdt. rewrite advanceParticle_life.
      assert (0 < dt / 16.66) by (apply Rdiv_lt_0_compat; lra). lra.
    + intros ->. rewrite advanceParticle_life. lra.
    + rewrite Hk. split; intros H; lra.
  - intros q Hq. rewrite Hp in Hq. apply in_app_or in Hq as [Hq | Hq].
    + eapply advanceParticles_alive; eassumption.
    + rewrite Forall_forall in Hf. rewrite (Hf q Hq). lra.
Qed.

Lemma particles_advance_and_expire_witness :
  0 < 16.66 /\
  pt_life (advanceParticle 16.66 spark) < pt_life spark /\
  forall q,
    In q (particlesRef (fst (update (fun _ => 0) START 16.66
                               (set_particlesRef [spark] initialRefs)))) ->
    0 < pt_life q.
Proof.
  assert (Hdt : 0 < 16.66) by lra.
  destruct (particles_advance_and_expire (fun _ => 0) START 16.66
              (set_particlesRef [spark] initialRefs)) as (_ & Hold & Hall).
  split; [exact Hdt | split; [| exact Hall]].
  exact (proj1 (proj2 (Hold spark (or_introl eq_refl))) Hdt).
Defined.

(** ** C6: the easing does not depend on the frame rate *)

(** C6: for a fixed target, easing the player by [dt1] and then by [dt2]
    gives the same player as easing once by [dt1 + dt2]; and so two calls
    of [update] leave the player where one call over the whole time
    does. *)
Theorem easing_frame_rate_independent
    (rnd : nat -> R) (gs : GameState) (dt1 dt2 : R) (r : Refs) :
  p_x (easePlayer dt2 (easePlayer dt1 (playerRef r))) =
    p_x (easePlayer (dt1 + dt2) (playerRef r)) /\
  playerRef (fst (update rnd gs dt2 (fst (update rnd gs dt1 r)))) =
    playerRef (fst (update rnd gs (dt1 + dt2) r)).
Proof.
  split; [now rewrite easePlayer_compose |].
  rewrite !update_playerRef, update_canvasRef.
  destruct gs; try reflexivity.
  destruct (canvasRef r); [apply easePlayer_compose | reflexivity].
Qed.

(** ** C3: the player stays in the play width *)

Lemma resize_inPlayWidth (rnd : nat -> R) (W H : R) (r : Refs) :
  68 <= W -> inPlayWidth W (fst (resize W H r)).
Proof.
  intros HW. unfold resize, initGame, inPlayWidth.
  cbn [canvasRef fst playerRef p_width p_x p_targetX width].
  repeat split; try lra. exists (mkCanvas W H). auto.
Qed.

Lemma handleMove_inPlayWidth (W : R) (gs : GameState) (dir : Direction) (r : Refs) :
  68 <= W -> inPlayWidth W r -> inPlayWidth W (fst (handleMove gs dir r)).
Proof.
  intros HW Hinv. pose proof Hinv as ((canvas & Hc & Hw) & Hpw & Hx & Ht).
  unfold handleMove.
  destruct (negb (GameState_eqb gs PLAYING)); [exact Hinv |].
  rewrite Hc. cbn [fst]. unfold inPlayWidth.
  destruct dir; cbn [set_playerRef set_targetX canvasRef playerRef p_width p_x p_targetX];
    (split; [eauto |]); (split; [exact Hpw |]); (split; [exact Hx |]);
    rewrite ?Hpw, Hw.
  - unfold Rmax. destruct (Rle_dec _ _); lra.
  - unfold Rmin. destruct (Rle_dec _ _); lra.
Qed.

Lemma update_inPlayWidth (rnd : nat -> R) (W : R) (gs : GameState) (dt : R) (r : Refs) :
  0 <= dt -> inPlayWidth W r -> inPlayWidth W (fst (update rnd gs dt r)).
Proof.
  intros Hdt ((canvas & Hc & Hw) & Hpw & Hx & Ht). unfold inPlayWidth.
  rewrite update_canvasRef, update_playerRef, Hc.
  split; [eauto |].
  destruct gs; try (split; [exact Hpw |]; split; assumption).
  split; [exact Hpw |]. split.
  - apply easePlayer_between; assumption.
  - exact Ht.
Qed.

Lemma canvasStep_inPlayWidth (rnd : nat -> R) (W : R) (st : Refs * list Event)
    (a : CanvasAction) :
  68 <= W -> elapsed a -> inPlayWidth W (fst st) ->
  inPlayWidth W (fst (canvasStep rnd st a)).
Proof.
  intros HW Ha Hinv. unfold canvasStep. destruct a as [gs dir | gs dt].
  - pose proof (handleMove_inPlayWidth W gs dir (fst st) HW Hinv) as H.
    destruct (handleMove gs dir (fst st)). exact H.
  - pose proof (update_inPlayWidth rnd W gs dt (fst st) Ha Hinv) as H.
    destruct (update rnd gs dt (fst st)). exact H.
Qed.

Lemma fold_inPlayWidth (rnd : nat -> R) (W : R) (acts : list CanvasAction) :
  68 <= W -> Forall elapsed acts ->
  forall st, inPlayWidth W (fst st) ->
             inPlayWidth W (fst (fold_left (canvasStep rnd) acts st)).
Proof.
  intros HW. induction 1 as [| a rest Ha _ IH]; intros st Hinv; cbn [fold_left].
  - exact Hinv.
  - apply IH. now apply canvasStep_inPlayWidth.
Qed.

(** C3, as stated, fails on a canvas narrower than 68 pixels, where the
    range [10, canvasWidth - playerWidth - 10] is empty: right after the
    reset on a canvas 40 wide the player is at [x = 40 / 2 - 24 = -4]. *)
Lemma player_outside_range_on_narrow_canvas :
  let r := fst (canvasRun (fun _ => 0) [] (fst (resize 40 600 initialRefs))) in
  p_x (playerRef r) = -4 /\
  ~ (10 <= p_x (playerRef r) <= 40 - p_width (playerRef r) - 10).
Proof.
  cbn. split; lra.
Qed.

(** C3 (amended): after a game reset on a canvas at least 68 pixels wide
    (so that the range is not empty), for every sequence of steering
    intents and frames with non-negative elapsed times, in any phase, the
    player's x and target-x both lie in
    [10, canvasWidth - playerWidth - 10]. *)
Theorem player_stays_in_play_width
    (rnd : nat -> R) (W H : R) (r0 : Refs) (acts : list CanvasAction) :
  68 <= W ->
  Forall elapsed acts ->
  let r := fst (canvasRun rnd acts (fst (resize W H r0))) in
  10 <= p_x (playerRef r) <= W - p_width (playerRef r) - 10 /\
  10 <= p_targetX (playerRef r) <= W - p_width (playerRef r) - 10.
Proof.
  intros HW Hacts r.
  assert (Hinv : inPlayWidth W r).
  { apply fold_inPlayWidth; trivial. cbn [fst]. now apply resize_inPlayWidth. }
  destruct Hinv as (_ & Hpw & Hx & Ht). rewrite Hpw. split; assumption.
Qed.

Lemma player_stays_in_play_width_witness :
  68 <= 800 /\
  Forall elapsed [move PLAYING Left; frame PLAYING 16; move PLAYING Right] /\
  let r := fst (canvasRun (fun _ => 0)
                  [move PLAYING Left; frame PLAYING 16; move PLAYING Right]
                  (fst (resize 800 600 initialRefs))) in
  10 <= p_x (playerRef r) <= 800 - p_width (playerRef r) - 10 /\
  10 <= p_targetX (playerRef r) <= 800 - p_width (playerRef r) - 10.
Proof.
  assert (H68 : 68 <= 800) by lra.
  assert (Hel : Forall elapsed [move PLAYING Left; frame PLAYING 16; move PLAYING Right])
    by (repeat constructor; cbn; lra).
  split; [exact H68 | split; [exact Hel |]].
  exact (player_stays_in_play_width (fun _ => 0) 800 600 initialRefs _ H68 Hel).
Defined.

(** The scenario of the specification: width 800, player width 48, so the
    initial x is 376; one steering intent to the left with lane width 200
    gives target-x [max(10, 176) = 176]. *)
Example steer_left_once :
  let r0 := fst (resize 800 600 initialRefs) in
  p_x (playerRef r0) = 376 /\
  p_targetX (playerRef (fst (handleMove PLAYING Left r0))) = 176.
Proof.
  cbn. split; [lra |]. unfold Rmax. destruct (Rle_dec _ _); lra.
Qed.

(** ** C4: the score of a run *)

Lemma handleMove_score (gs : GameState) (dir : Direction) (r : Refs) :
  scoreRef (fst (handleMove gs dir r)) = scoreRef r /\
  canvasRef (fst (handleMove gs dir r)) = canvasRef r /\
  scoreUpdateCalls (snd (handleMove gs dir r)) = [].
Proof.
  unfold handleMove. destruct (negb (GameState_eqb gs PLAYING)); [auto |].
  destruct (canvasRef r) eqn:Hc; cbn; auto.
Qed.

Lemma update_score (rnd : nat -> R) (gs : GameState) (dt : R) (r : Refs) :
  canvasRef r <> None ->
  scoreRef (fst (update rnd gs dt r)) =
    scoreRef r + 10 * INR (List.length (scoreUpdateCalls (snd (update rnd gs dt r))))
    + 0.015 * playingTime [frame gs dt].
Proof.
  intros Hc. destruct gs.
  1,3: rewrite update_idle by (left; discriminate); cbn; lra.
  destruct (canvasRef r) as [canvas |] eqn:E; [| congruence].
  destruct (update_spec rnd dt r canvas E)
    as (_ & _ & _ & _ & _ & _ & Hs & _ & _ & Hn).
  rewrite Hs, Hn. cbn [playingTime]. lra.
Qed.

Lemma canvasStep_score (rnd : nat -> R) (st : Refs * list Event) (a : CanvasAction) :
  canvasRef (fst st) <> None ->
  let st' := canvasStep rnd st a in
  canvasRef (fst st') = canvasRef (fst st) /\
  scoreRef (fst st') - 10 * INR (List.length (scoreUpdateCalls (snd st'))) =
    scoreRef (fst st) - 10 * INR (List.length (scoreUpdateCalls (snd st)))
    + 0.015 * playingTime [a].
Proof.
  intros Hc. unfold canvasStep. destruct a as [gs dir | gs dt].
  - destruct (handleMove_score gs dir (fst st)) as (Hs & Hcv & Hn).
    destruct (handleMove gs dir (fst st)) as [r' ev]. cbn [fst snd] in *.
    rewrite scoreUpdateCalls_app, Hn, app_nil_r, Hs. cbn [playingTime].
    split; [exact Hcv | lra].
  - pose proof (update_score rnd gs dt (fst st) Hc) as Hs.
    pose proof (update_canvasRef rnd gs dt (fst st)) as Hcv.
    destruct (update rnd gs dt (fst st)) as [r' ev]. cbn [fst snd] in *.
    rewrite scoreUpdateCalls_app, length_app, plus_INR, Hs.
    split; [exact Hcv | lra].
Qed.

Lemma playingTime_cons (a : CanvasAction) (rest : list CanvasAction) :
  playingTime (a :: rest) = playingTime [a] + playingTime rest.
Proof.
  destruct a as [gs dir | gs dt]; cbn [playingTime]; [lra |].
  destruct gs; lra.
Qed.

Lemma fold_score (rnd : nat -> R) (acts : list CanvasAction) :
  forall st,
    canvasRef (fst st) <> None ->
    let st' := fold_left (canvasStep rnd) acts st in
    scoreRef (fst st') - 10 * INR (List.length (scoreUpdateCalls (snd st'))) =
      scoreRef (fst st) - 10 * INR (List.length (scoreUpdateCalls (snd st)))
      + 0.015 * playingTime acts.
Proof.
  induction acts as [| a rest IH]; intros st Hc; cbn [fold_left].
  - cbn. lra.
  - destruct (canvasStep_score rnd st a Hc) as (Hcv & Hs).
    cbv zeta. rewrite IH by (rewrite Hcv; exact Hc).
    rewrite Hs, (playingTime_cons a rest). lra.
Qed.

Lemma update_dodged (rnd : nat -> R) (gs : GameState) (dt : R) (r : Refs) :
  canvasRef r <> None ->
  List.length (scoreUpdateCalls (snd (update rnd gs dt r))) = dodgedInFrame rnd gs dt r /\
  scoreRef (fst (update rnd gs dt r)) =
    scoreRef r + 10 * INR (dodgedInFrame rnd gs dt r) + 0.015 * playingTime [frame gs dt].
Proof.
  intros Hc. unfold dodgedInFrame. destruct gs.
  1,3: rewrite update_idle by (left; discriminate); cbn; split; [reflexivity | lra].
  destruct (canvasRef r) as [canvas |] eqn:E; [| congruence].
  destruct (update_spec rnd dt r canvas E)
    as (_ & _ & _ & _ & _ & _ & Hs & _ & _ & Hn).
  split; [exact Hn |]. rewrite Hs. cbn [playingTime]. lra.
Qed.

Lemma fold_dodged (rnd : nat -> R) (acts : list CanvasAction) :
  forall st,
    canvasRef (fst st) <> None ->
    List.length (scoreUpdateCalls (snd (fold_left (canvasStep rnd) acts st))) =
      (List.length (scoreUpdateCalls (snd st)) + dodged rnd acts st)%nat.
Proof.
  induction acts as [| a rest IH]; intros st Hc; cbn [fold_left dodged]; [lia |].
  destruct (canvasStep_score rnd st a Hc) as (Hcv & _).
  rewrite IH by (rewrite Hcv; exact Hc).
  assert (Hstep : List.length (scoreUpdateCalls (snd (canvasStep rnd st a))) =
                  (List.length (scoreUpdateCalls (snd st)) +
                   match a with
                   | frame gs dt => dodgedInFrame rnd gs dt (fst st)
                   | move _ _ => 0
                   end)%nat).
  { unfold canvasStep. destruct a as [gs dir | gs dt].
    - destruct (handleMove_score gs dir (fst st)) as (_ & _ & Hn).
      destruct (handleMove gs dir (fst st)) as [r' ev]. cbn [fst snd] in *.
      rewrite scoreUpdateCalls_app, Hn, app_nil_r. lia.
    - destruct (update_dodged rnd gs dt (fst st) Hc) as (Hn & _).
      destruct (update rnd gs dt (fst st)) as [r' ev]. cbn [fst snd] in *.
      rewrite scoreUpdateCalls_app, length_app, Hn. reflexivity. }
  rewrite Hstep. lia.
Qed.

(** C4: after a reset on a sized canvas, whatever the steering intents and
    frames of the run, the score is exactly [10 * N + 0.015 * T], hence at
    least that, where N is the number of obstacles dodged during the run
    (the obstacles that, in some playing frame, fell past the bottom of
    the canvas without overlapping the player) and T the time of the
    frames run in the playing phase; each dodged obstacle makes one
    [onScoreUpdate] call; and every playing frame adds 10 per obstacle it
    lets past the bottom and [0.015 * dt], whatever else happens to the
    obstacles in it. *)
Theorem score_counts_dodges_and_time
    (rnd : nat -> R) (W H : R) (r0 : Refs) (acts : list CanvasAction) :
  let start := fst (resize W H r0) in
  let st := canvasRun rnd acts start in
  let N := dodged rnd acts (start, []) in
  let T := playingTime acts in
  scoreRef start = 0 /\
  scoreRef (fst st) = 10 * INR N + 0.015 * T /\
  scoreRef (fst st) >= 10 * INR N + 0.015 * T /\
  List.length (scoreUpdateCalls (snd st)) = N /\
  (forall (r : Refs) (dt : R),
      canvasRef r <> None ->
      scoreRef (fst (update rnd PLAYING dt r)) =
        scoreRef r + 10 * INR (dodgedInFrame rnd PLAYING dt r) + 0.015 * dt).
Proof.
  cbv zeta. unfold canvasRun.
  assert (Hc : canvasRef (fst (fst (resize W H r0), @nil Event)) <> None)
    by (cbn; discriminate).
  pose proof (fold_score rnd acts (fst (resize W H r0), []) Hc) as Hs.
  pose proof (fold_dodged rnd acts (fst (resize W H r0), []) Hc) as Hn.
  cbv zeta in Hs. cbn [fst snd scoreUpdateCalls flat_map List.length INR Nat.add] in Hs, Hn.
  assert (H0 : scoreRef (fst (resize W H r0)) = 0) by reflexivity.
  rewrite H0, Hn in Hs.
  split; [exact H0 | split; [lra | split; [lra | split; [exact Hn |]]]].
  intros r dt Hr. destruct (update_dodged rnd PLAYING dt r Hr) as (_ & Hu).
  rewrite Hu. cbn [playingTime]. lra.
Qed.

(** ** C7: the spawn timer *)

Lemma canvasStep_timer (rnd : nat -> R) (st : Refs * list Event) (a : CanvasAction)
    (canvas : Canvas) :
  canvasRef (fst st) = Some canvas ->
  waits a (fst st) ->
  canvasRef (fst (canvasStep rnd st a)) = Some canvas /\
  spawnTimerRef (fst (canvasStep rnd st a)) =
    spawnTimerRef (fst st) - playingTime [a].
Proof.
  intros Hc Hw. unfold canvasStep. destruct a as [gs dir | gs dt].
  - unfold handleMove. destruct (negb (GameState_eqb gs PLAYING)); cbn [fst].
    + split; [exact Hc | cbn; lra].
    + rewrite Hc. cbn. split; [exact Hc | lra].
  - destruct gs.
    1,3: rewrite update_idle by (left; discriminate); cbn; split; [exact Hc | lra].
    destruct (update_spec rnd dt (fst st) canvas Hc) as (H1 & _ & _ & H4 & _).
    destruct (beforePass_waits rnd canvas dt (fst st) Hw) as (_ & Ht).
    destruct (update rnd PLAYING dt (fst st)) as [r' ev]. cbn [fst] in *.
    split; [exact H1 |]. rewrite H4, Ht. cbn [playingTime]. lra.
Qed.

Lemma fold_timer (rnd : nat -> R) (canvas : Canvas) (acts : list CanvasAction) :
  forall st,
    canvasRef (fst st) = Some canvas ->
    noSpawn rnd acts st ->
    canvasRef (fst (fold_left (canvasStep rnd) acts st)) = Some canvas /\
    spawnTimerRef (fst (fold_left (canvasStep rnd) acts st)) =
      spawnTimerRef (fst st) - playingTime acts.
Proof.
  induction acts as [| a rest IH]; intros st Hc Hn; cbn [fold_left].
  - cbn. split; [exact Hc | lra].
  - destruct Hn as (Hw & Hn).
    destruct (canvasStep_timer rnd st a canvas Hc Hw) as (Hc' & Ht).
    destruct (IH _ Hc' Hn) as (Hc'' & Ht').
    split; [exact Hc'' |]. rewrite Ht', Ht, (playingTime_cons a rest). lra.
Qed.

(** C7, as stated, fails across a reset: a resize of the window in the
    playing phase runs [initGame], which puts the spawn timer back to 0,
    so the frame after it spawns again.  Here the first playing frame
    after a reset spawns and leaves the timer above 350, the window is
    resized, and the next frame, 16 ms later, spawns too. *)
Lemma resize_respawns_within_a_frame :
  let r0 := fst (resize 800 600 initialRefs) in
  let r1 := fst (update halves PLAYING 16 r0) in
  let r2 := fst (resize 1024 768 r1) in
  (spawnTimerRef r0 - 16 <= 0 /\
   List.length (obstaclesRef (beforePass halves (mkCanvas 800 600) 16 r0)) =
     S (List.length (obstaclesRef r0))) /\
  350 <= spawnTimerRef r1 /\
  spawnTimerRef r2 = 0 /\
  (spawnTimerRef r2 - 16 <= 0 /\
   List.length (obstaclesRef (beforePass halves (mkCanvas 1024 768) 16 r2)) =
     S (List.length (obstaclesRef r2))) /\
  ~ 350 <= playingTime [frame PLAYING 16].
Proof.
  cbv zeta.
  assert (Hc : canvasRef (fst (resize 800 600 initialRefs)) = Some (mkCanvas 800 600))
    by reflexivity.
  assert (H0 : spawnTimerRef (fst (resize 800 600 initialRefs)) - 16 <= 0) by (cbn; lra).
  destruct (beforePass_spawns halves (mkCanvas 800 600) 16 _ H0) as (Ho & Ht).
  destruct (update_spec halves 16 _ (mkCanvas 800 600) Hc) as (_ & _ & _ & H4 & _).
  assert (H2 : spawnTimerRef
                 (fst (resize 1024 768
                         (fst (update halves PLAYING 16 (fst (resize 800 600 initialRefs))))))
               = 0) by reflexivity.
  assert (H2' : spawnTimerRef
                  (fst (resize 1024 768
                          (fst (update halves PLAYING 16 (fst (resize 800 600 initialRefs))))))
                - 16 <= 0) by (rewrite H2; lra).
  destruct (beforePass_spawns halves (mkCanvas 1024 768) 16 _ H2') as (Ho' & _).
  split; [split; [exact H0 | rewrite Ho, length_app; cbn [List.length]; lia] |].
  split; [rewrite H4, Ht; apply Rmax_l |].
  split; [exact H2 |].
  split; [split; [exact H2' | rewrite Ho', length_app; cbn [List.length]; lia] |].
  cbn [playingTime]. lra.
Qed.

(** C7 (amended): a playing frame whose timer runs out spawns one obstacle
    and leaves the spawn timer at [max(350, 1000 / difficulty)], which is
    at least 350 whatever the difficulty; so, as long as no reset comes in
    between, when the next spawn comes, in a later playing frame and after
    steering intents and frames none of which spawned, at least 350 ms of
    playing time have gone by since this spawn. *)
Theorem spawn_timer_reset_and_interval
    (rnd : nat -> R) (canvas : Canvas) (dt0 : R) (r0 : Refs) :
  canvasRef r0 = Some canvas ->
  spawnTimerRef r0 - dt0 <= 0 ->
  let r1 := fst (update rnd PLAYING dt0 r0) in
  List.length (obstaclesRef (beforePass rnd canvas dt0 r0)) =
    S (List.length (obstaclesRef r0)) /\
  spawnTimerRef r1 = Rmax 350 (1000 / currentDifficultyRef r1) /\
  350 <= spawnTimerRef r1 /\
  forall (acts : list CanvasAction) (dt : R),
    noSpawn rnd acts (r1, []) ->
    spawnTimerRef (fst (canvasRun rnd acts r1)) - dt <= 0 ->
    350 <= playingTime acts + dt.
Proof.
  intros Hc Hspawn r1.
  destruct (update_spec rnd dt0 r0 canvas Hc) as (H1 & _ & _ & H4 & H5 & _).
  destruct (beforePass_spawns rnd canvas dt0 r0 Hspawn) as (Ho & Ht).
  fold r1 in H1, H4, H5.
  assert (Hreset : spawnTimerRef r1 = Rmax 350 (1000 / currentDifficultyRef r1))
    by (rewrite H4, H5; exact Ht).
  assert (Hfloor : 350 <= spawnTimerRef r1) by (rewrite Hreset; apply Rmax_l).
  repeat split; trivial.
  - rewrite Ho, length_app. cbn [List.length]. lia.
  - intros acts dt Hn Hnext. unfold canvasRun in Hnext.
    destruct (fold_timer rnd canvas acts (r1, []) H1 Hn) as (_ & Hrun).
    cbn [fst] in Hrun. rewrite Hrun in Hnext. lra.
Qed.

(** ** C8 and C10: the spawned obstacle *)

Lemma spawnObstacle_bounds (rnd : nat -> R) (canvas : Canvas) (r : Refs) :
  (forall n, 0 <= rnd n < 1) ->
  let o := spawnObstacle rnd canvas r in
  0 <= o_speed o - currentFallSpeedRef r < 2.5 /\
  50 <= o_width o < 130 /\
  o_y o = -100 /\ o_height o = 45 /\
  (o_width o <= width canvas -> 0 <= o_x o <= width canvas - o_width o).
Proof.
  intros Hr. unfold spawnObstacle. cbn [o_speed o_width o_x o_y o_height].
  pose proof (Hr (randomCalls r)) as H0.
  pose proof (Hr (randomCalls r + 1)%nat) as H1.
  pose proof (Hr (randomCalls r + 2)%nat) as H2.
  split; [lra |]. split; [lra |]. split; [reflexivity |].
  split; [reflexivity |]. intros Hw. split; nra.
Qed.

(** C8: the obstacle a playing frame spawns falls at the base speed of
    that frame plus a jitter in [0, 2.5), hence at least at the base
    speed, and its width lies in [50, 130). *)
Theorem spawned_speed_and_width
    (rnd : nat -> R) (canvas : Canvas) (dt : R) (r : Refs) :
  (forall n, 0 <= rnd n < 1) ->
  canvasRef r = Some canvas ->
  spawnTimerRef r - dt <= 0 ->
  exists o jitter,
    obstaclesRef (beforePass rnd canvas dt r) = obstaclesRef r ++ [o] /\
    o_speed o = currentFallSpeedRef (fst (update rnd PLAYING dt r)) + jitter /\
    0 <= jitter < 2.5 /\
    currentFallSpeedRef (fst (update rnd PLAYING dt r)) <= o_speed o /\
    50 <= o_width o < 130.
Proof.
  intros Hr Hc Hspawn.
  destruct (update_spec rnd dt r canvas Hc) as (_ & _ & _ & _ & _ & H6 & _).
  destruct (beforePass_spawns rnd canvas dt r Hspawn) as (Ho & _).
  destruct (spawnObstacle_bounds rnd canvas (beforeSpawn dt r) Hr) as (Hs & Hw & _).
  set (o := spawnObstacle rnd canvas (beforeSpawn dt r)) in *.
  exists o, (o_speed o - currentFallSpeedRef (beforeSpawn dt r)).
  rewrite H6.
  change (currentFallSpeedRef (beforeSpawn dt r))
    with (currentFallSpeedRef r + SPEED_INCREMENT * dt) in *.
  repeat split; trivial; lra.
Qed.

Lemma spawn_timer_reset_and_interval_witness :
  canvasRef (fst (resize 800 600 initialRefs)) = Some (mkCanvas 800 600) /\
  spawnTimerRef (fst (resize 800 600 initialRefs)) - 16 <= 0 /\
  350 <= spawnTimerRef (fst (update (fun _ => 0) PLAYING 16
                               (fst (resize 800 600 initialRefs)))).
Proof.
  assert (Hc : canvasRef (fst (resize 800 600 initialRefs)) = Some (mkCanvas 800 600))
    by reflexivity.
  assert (Ht : spawnTimerRef (fst (resize 800 600 initialRefs)) - 16 <= 0)
    by (cbn; lra).
  split; [exact Hc | split; [exact Ht |]].
  exact (proj1 (proj2 (proj2
    (spawn_timer_reset_and_interval (fun _ => 0) (mkCanvas 800 600) 16
       (fst (resize 800 600 initialRefs)) Hc Ht)))).
Defined.

Lemma spawned_speed_and_width_witness :
  (forall n : nat, 0 <= (fun _ : nat => 1 / 2) n < 1) /\
  canvasRef (fst (resize 800 600 initialRefs)) = Some (mkCanvas 800 600) /\
  spawnTimerRef (fst (resize 800 600 initialRefs)) - 16 <= 0 /\
  exists o jitter,
    obstaclesRef (beforePass (fun _ => 1 / 2) (mkCanvas 800 600) 16
                    (fst (resize 800 600 initialRefs))) =
      obstaclesRef (fst (resize 800 600 initialRefs)) ++ [o] /\
    o_speed o =
      currentFallSpeedRef (fst (update (fun _ => 1 / 2) PLAYING 16
                                  (fst (resize 800 600 initialRefs)))) + jitter /\
    0 <= jitter < 2.5 /\
    currentFallSpeedRef (fst (update (fun _ => 1 / 2) PLAYING 16
                                (fst (resize 800 600 initialRefs)))) <= o_speed o /\
    50 <= o_width o < 130.
Proof.
  assert (Hr : forall n : nat, 0 <= (fun _ : nat => 1 / 2) n < 1) by (intros n; lra).
  assert (Hc : canvasRef (fst (resize 800 600 initialRefs)) = Some (mkCanvas 800 600))
    by reflexivity.
  assert (Ht : spawnTimerRef (fst (resize 800 600 initialRefs)) - 16 <= 0)
    by (cbn; lra).
  split; [exact Hr | split; [exact Hc | split; [exact Ht |]]].
  exact (spawned_speed_and_width (fun _ => 1 / 2) (mkCanvas 800 600) 16
           (fst (resize 800 600 initialRefs)) Hr Hc Ht).
Defined.

(** C10, as stated, fails on a canvas narrower than the obstacle: on a
    canvas 60 wide, with every draw equal to 1/2, the first playing frame
    spawns an obstacle of width 90 at [x = 1/2 * (60 - 90) = -15]. *)
Lemma obstacle_spawned_outside_narrow_canvas :
  let rnd := fun _ : nat => 1 / 2 in
  let canvas := mkCanvas 60 600 in
  let r := fst (resize 60 600 initialRefs) in
  exists o,
    canvasRef r = Some canvas /\
    obstaclesRef (beforePass rnd canvas 16 r) = [o] /\
    o_width o = 90 /\ o_x o = -15 /\
    ~ (0 <= o_x o /\ o_x o + o_width o <= width canvas).
Proof.
  cbv zeta.
  assert (Ht : spawnTimerRef (fst (resize 60 600 initialRefs)) - 16 <= 0) by (cbn; lra).
  destruct (beforePass_spawns (fun _ => 1 / 2) (mkCanvas 60 600) 16 _ Ht) as (Ho & _).
  eexists. split; [reflexivity |]. split; [exact Ho |].
  cbn. repeat split; lra.
Qed.

(** C10 (amended): the obstacle a playing frame spawns is at y = -100 with
    height 45, and when the canvas is at least as wide as the obstacle
    (always so on a canvas 130 or more wide) its x lies in
    [0, canvasWidth - width], so x >= 0 and x + width <= canvasWidth. *)
Theorem spawned_inside_canvas
    (rnd : nat -> R) (canvas : Canvas) (dt : R) (r : Refs) :
  (forall n, 0 <= rnd n < 1) ->
  canvasRef r = Some canvas ->
  spawnTimerRef r - dt <= 0 ->
  exists o,
    obstaclesRef (beforePass rnd canvas dt r) = obstaclesRef r ++ [o] /\
    o_y o = -100 /\ o_height o = 45 /\
    (o_width o <= width canvas ->
       0 <= o_x o <= width canvas - o_width o /\
       o_x o + o_width o <= width canvas) /\
    (130 <= width canvas ->
       0 <= o_x o <= width canvas - o_width o /\
       o_x o + o_width o <= width canvas).
Proof.
  intros Hr Hc Hspawn.
  destruct (beforePass_spawns rnd canvas dt r Hspawn) as (Ho & _).
  destruct (spawnObstacle_bounds rnd canvas (beforeSpawn dt r) Hr)
    as (_ & Hw & Hy & Hh & Hx).
  exists (spawnObstacle rnd canvas (beforeSpawn dt r)).
  split; [exact Ho |]. split; [exact Hy |]. split; [exact Hh |].
  split; intros Hwide.
  - specialize (Hx Hwide). split; [exact Hx | lra].
  - assert (Hfit : o_width (spawnObstacle rnd canvas (beforeSpawn dt r)) <= width canvas)
      by lra.
    specialize (Hx Hfit). split; [exact Hx | lra].
Qed.

Lemma spawned_inside_canvas_witness :
  (forall n : nat, 0 <= (fun _ : nat => 1 / 2) n < 1) /\
  canvasRef (fst (resize 800 600 initialRefs)) = Some (mkCanvas 800 600) /\
  spawnTimerRef (fst (resize 800 600 initialRefs)) - 16 <= 0 /\
  exists o,
    obstaclesRef (beforePass (fun _ => 1 / 2) (mkCanvas 800 600) 16
                    (fst (resize 800 600 initialRefs))) =
      obstaclesRef (fst (resize 800 600 initialRefs)) ++ [o] /\
    o_y o = -100 /\ o_height o = 45 /\
    (o_width o <= width (mkCanvas 800 600) ->
       0 <= o_x o <= width (mkCanvas 800 600) - o_width o /\
       o_x o + o_width o <= width (mkCanvas 800 600)) /\
    (130 <= width (mkCanvas 800 600) ->
       0 <= o_x o <= width (mkCanvas 800 600) - o_width o /\
       o_x o + o_width o <= width (mkCanvas 800 600)).
Proof.
  assert (Hr : forall n : nat, 0 <= (fun _ : nat => 1 / 2) n < 1) by (intros n; lra).
  assert (Hc : canvasRef (fst (resize 800 600 initialRefs)) = Some (mkCanvas 800 600))
    by reflexivity.
  assert (Ht : spawnTimerRef (fst (resize 800 600 initialRefs)) - 16 <= 0)
    by (cbn; lra).
  split; [exact Hr | split; [exact Hc | split; [exact Ht |]]].
  exact (spawned_inside_canvas (fun _ => 1 / 2) (mkCanvas 800 600) 16
           (fst (resize 800 600 initialRefs)) Hr Hc Ht).
Defined.

(** ** C1: the collision frame *)

Lemma obstaclePass_app (rnd : nat -> R) (dt : R) (canvas : Canvas) (p : Player)
    (a b : list Obstacle) :
  forall r,
    obstaclePass rnd dt canvas p (a ++ b) r =
      (let '(k1, r1, e1) := obstaclePass rnd dt canvas p a r in
       let '(k2, r2, e2) := obstaclePass rnd dt canvas p b r1 in
       (k1 ++ k2, r2, e1 ++ e2)).
Proof.
  induction a as [| o rest IH]; intros r.
  - cbn [app obstaclePass].
    destruct (obstaclePass rnd dt canvas p b r) as [[k2 r2] e2]. reflexivity.
  - cbn [app obstaclePass].
    destruct (collides p (fall dt o)).
    + destruct (createExplosion rnd _ _ RED_VULN r) as [r1 ev1].
      rewrite IH.
      destruct (obstaclePass rnd dt canvas p rest r1) as [[k1 r1'] e1].
      destruct (obstaclePass rnd dt canvas p b r1') as [[k2 r2] e2].
      now rewrite <- !app_assoc.
    + destruct (Rgtb (o_y (fall dt o)) (height canvas)).
      * rewrite IH.
        destruct (obstaclePass rnd dt canvas p rest _) as [[k1 r1'] e1].
        destruct (obstaclePass rnd dt canvas p b r1') as [[k2 r2] e2].
        reflexivity.
      * rewrite IH.
        destruct (obstaclePass rnd dt canvas p rest r) as [[k1 r1'] e1].
        destruct (obstaclePass rnd dt canvas p b r1') as [[k2 r2] e2].
        reflexivity.
Qed.

Lemma pass_without_hits (rnd : nat -> R) (dt : R) (canvas : Canvas) (p : Player)
    (obs : list Obstacle) (r : Refs) :
  filter (hits dt p) obs = [] ->
  gameOverCalls (snd (obstaclePass rnd dt canvas p obs r)) = [] /\
  scoreRef (snd (fst (obstaclePass rnd dt canvas p obs r))) =
    scoreRef r + 10 * INR (List.length (filter (passes dt canvas p) obs)).
Proof.
  intros Hno.
  destruct (pass_spec rnd dt canvas p obs r)
    as (_ & _ & _ & _ & _ & _ & _ & Hs & _ & Hg & _).
  rewrite Hno in Hg. split; [| exact Hs].
  now apply length_zero_iff_nil.
Qed.

(** The game-over calls of a pass in which exactly one obstacle overlaps
    the player: one call, with the floor of the score as the obstacles
    before it left it. *)
Lemma pass_single_hit (rnd : nat -> R) (dt : R) (canvas : Canvas) (p : Player)
    (pre post : list Obstacle) (o : Obstacle) (r : Refs) :
  hits dt p o = true ->
  filter (hits dt p) pre = [] -> filter (hits dt p) post = [] ->
  gameOverCalls (snd (obstaclePass rnd dt canvas p (pre ++ o :: post) r)) =
    [Zfloor (scoreRef r + 10 * INR (List.length (filter (passes dt canvas p) pre)))].
Proof.
  intros Hh Hpre Hpost. rewrite obstaclePass_app.
  destruct (pass_without_hits rnd dt canvas p pre r Hpre) as (Hg1 & Hs1).
  destruct (obstaclePass rnd dt canvas p pre r) as [[k1 r1] e1].
  cbn [fst snd] in Hg1, Hs1.
  rewrite (pass_hit rnd dt canvas p o post r1 Hh). cbv zeta.
  set (rx := explosionLoop rnd 25 _ _ RED_VULN r1).
  destruct (explosionLoop_spec rnd 25 (p_x p + p_width p / 2)
              (p_y p + p_height p / 2) RED_VULN r1) as ((_ & _ & _ & Hsx & _) & _).
  fold rx in Hsx.
  destruct (pass_without_hits rnd dt canvas p post rx Hpost) as (Hg2 & _).
  destruct (obstaclePass rnd dt canvas p post rx) as [[k2 r2] e2].
  cbn [fst snd] in *.
  rewrite gameOverCalls_app, Hg1. cbn [app gameOverCalls flat_map].
  fold (gameOverCalls e2). rewrite Hg2, Hsx, Hs1. reflexivity.
Qed.

Lemma deliver_keeps_gameover (closure : AppState) (e : Event) (st : AppState) :
  gameState st = GAMEOVER \/ (exists n, e = onGameOver n) ->
  gameState (deliverFrom closure e st) = GAMEOVER.
Proof.
  intros [H | (n & ->)].
  - destruct e; cbn [deliverFrom setScore gameState]; trivial.
    unfold handleGameOverFrom. now destruct (num_gtb _ _).
  - cbn [deliverFrom]. unfold handleGameOverFrom. now destruct (num_gtb _ _).
Qed.

Lemma deliverAll_gameover (evs : list Event) (closure : AppState) :
  forall st,
    gameState st = GAMEOVER \/ gameOverCalls evs <> [] ->
    gameState (fold_left (fun pending e => deliverFrom closure e pending) evs st)
      = GAMEOVER.
Proof.
  induction evs as [| e rest IH]; intros st H; cbn [fold_left].
  - destruct H as [H | H]; [exact H | now contradiction H].
  - apply IH. destruct H as [H | H].
    + left. apply deliver_keeps_gameover. now left.
    + destruct e; try (right; exact H).
      left. apply deliver_keeps_gameover. right. eauto.
Qed.

(** Two game-over calls of one frame both compare with the high score of
    the render, so both write. *)
Example two_game_overs_of_a_frame_both_write :
  calls (localStorage (deliverAll [onGameOver 5; onGameOver 5] (initialApp emptyStorage)))
  = [setItemCall HIGHSCORE_KEY "5"; setItemCall HIGHSCORE_KEY "5"].
Proof. reflexivity. Qed.

Ltac overlap :=
  unfold hits, collides, Rgtb; rewrite !andb_true_iff, !Rltb_true;
  cbn; repeat split; lra.

Lemma wideBlock_hits :
  hits 16.66 (easePlayer 16.66 (playerRef (fst (resize 800 600 initialRefs)))) wideBlock
  = true.
Proof. overlap. Qed.

Lemma fastBlock_hits :
  hits 16.66 (easePlayer 16.66 (playerRef (fst (resize 800 600 initialRefs)))) fastBlock
  = true.
Proof. overlap. Qed.

(** C1, as stated, fails on a frame in which two obstacles overlap the
    player: each of them sets off an explosion and a game-over call, so
    the frame emits 50 particles and calls [onGameOver] twice. *)
Lemma two_collisions_in_one_frame :
  let res := update (fun _ => 0) PLAYING 16.66 crowded in
  canvasRef crowded = Some (mkCanvas 800 600) /\
  particlesRef crowded = [] /\
  List.length (particlesRef (fst res)) = 50%nat /\
  List.length (gameOverCalls (snd res)) = 2%nat.
Proof.
  cbv zeta. split; [reflexivity |]. split; [reflexivity |].
  assert (Hc : canvasRef crowded = Some (mkCanvas 800 600)) by reflexivity.
  destruct (update_spec (fun _ => 0) 16.66 crowded (mkCanvas 800 600) Hc)
    as (_ & _ & _ & _ & _ & _ & _ & (em & Hp & Hl & _) & Hg & _).
  assert (Hw : 0 < spawnTimerRef crowded - 16.66) by (cbn; lra).
  destruct (beforePass_waits (fun _ => 0) (mkCanvas 800 600) 16.66 crowded Hw)
    as (Ho & _).
  rewrite Ho in Hl, Hg.
  change (obstaclesRef crowded) with [wideBlock; fastBlock] in Hl, Hg.
  change (playerRef crowded) with (playerRef (fst (resize 800 600 initialRefs))) in Hl, Hg.
  cbn [filter] in Hl, Hg. rewrite wideBlock_hits, fastBlock_hits in Hl, Hg.
  split; [| exact Hg].
  rewrite Hp, length_app, Hl. reflexivity.
Qed.

(** C1 (amended): in a playing frame on a mounted canvas in which exactly
    one obstacle overlaps the player (the obstacles as they stand after
    the spawn step, each moved by its fall, the player after the easing),
    [update] emits exactly 25 particles after the surviving old ones,
    calls [onGameOver] exactly once, with the floor of the score at that
    moment (the score at the start of the frame plus 10 for each obstacle
    earlier in the array that left the bottom in this frame), removes the
    colliding obstacle, leaves no obstacle overlapping the player, and the
    shell ends in the game-over phase. *)
Theorem single_collision_frame
    (rnd : nat -> R) (dt : R) (r : Refs) (canvas : Canvas)
    (pre post : list Obstacle) (o : Obstacle) (app : AppState) :
  let p := easePlayer dt (playerRef r) in
  let res := update rnd PLAYING dt r in
  canvasRef r = Some canvas ->
  obstaclesRef (beforePass rnd canvas dt r) = pre ++ o :: post ->
  hits dt p o = true ->
  filter (hits dt p) pre = [] ->
  filter (hits dt p) post = [] ->
  (exists emitted,
      particlesRef (fst res) = advanceParticles dt (particlesRef r) ++ emitted /\
      List.length emitted = 25%nat) /\
  gameOverCalls (snd res) =
    [Zfloor (scoreRef r
             + 10 * INR (List.length (filter (passes dt canvas p) pre)))] /\
  ~ In (fall dt o) (obstaclesRef (fst res)) /\
  (forall o', In o' (obstaclesRef (fst res)) -> collides p o' = false) /\
  gameState (deliverAll (snd res) app) = GAMEOVER.
Proof.
  intros p res Hc Hobs Hh Hpre Hpost.
  destruct (update_spec rnd dt r canvas Hc)
    as (_ & _ & Hkept & _ & _ & _ & _ & (em & Hp & Hl & _) & _).
  fold p in Hkept, Hl. fold res in Hkept, Hp.
  assert (Hcalls : gameOverCalls (snd res) =
            [Zfloor (scoreRef r
                     + 10 * INR (List.length (filter (passes dt canvas p) pre)))]).
  { unfold res. rewrite (update_playing rnd dt r canvas Hc). cbv zeta.
    destruct (beforePass_frame rnd canvas dt r) as (_ & Bp & _ & Bs & _).
    rewrite Bp, Hobs. fold p.
    pose proof (pass_single_hit rnd dt canvas p pre post o
                  (beforePass rnd canvas dt r) Hh Hpre Hpost) as Hg.
    destruct (obstaclePass rnd dt canvas p (pre ++ o :: post) _) as [[k r2] e].
    cbn [snd] in *. rewrite Hg, Bs. reflexivity. }
  assert (Hclear : forall o', In o' (obstaclesRef (fst res)) -> collides p o' = false).
  { intros o' Hin. rewrite Hkept in Hin. apply in_map_iff in Hin as (o0 & <- & Hin).
    apply filter_In in Hin as (_ & Hs). unfold stays in Hs.
    apply andb_prop in Hs as (Hs & _). now apply negb_true_iff in Hs. }
  split; [| split; [exact Hcalls | split; [| split; [exact Hclear |]]]].
  - exists em. split; [exact Hp |].
    rewrite Hl, Hobs, filter_app. cbn [filter]. rewrite Hh, Hpre, Hpost. reflexivity.
  - intros Hin. apply Hclear in Hin. unfold hits in Hh. congruence.
  - unfold deliverAll. apply deliverAll_gameover. right. rewrite Hcalls. discriminate.
Qed.

Lemma single_collision_frame_witness :
  canvasRef lonely = Some (mkCanvas 800 600) /\
  obstaclesRef (beforePass (fun _ => 0) (mkCanvas 800 600) 16.66 lonely) =
    [] ++ wideBlock :: [] /\
  hits 16.66 (easePlayer 16.66 (playerRef lonely)) wideBlock = true /\
  gameOverCalls (snd (update (fun _ => 0) PLAYING 16.66 lonely)) =
    [Zfloor (scoreRef lonely + 10 * INR 0)].
Proof.
  assert (Hc : canvasRef lonely = Some (mkCanvas 800 600)) by reflexivity.
  assert (Ho : obstaclesRef (beforePass (fun _ => 0) (mkCanvas 800 600) 16.66 lonely) =
               [] ++ wideBlock :: []).
  { apply beforePass_waits. cbn. lra. }
  assert (Hh : hits 16.66 (easePlayer 16.66 (playerRef lonely)) wideBlock = true)
    by exact wideBlock_hits.
  split; [exact Hc | split; [exact Ho | split; [exact Hh |]]].
  exact (proj1 (proj2
    (single_collision_frame (fun _ => 0) 16.66 lonely (mkCanvas 800 600)
       [] [] wideBlock (initialApp (mkStorage (fun _ => None) []))
       Hc Ho Hh eq_refl eq_refl))).
Defined.

(** ** C2: starting a run *)

(** C2, as stated, fails without a wallet: [startGame] then only opens the
    connect view; from the start screen the phase stays [START], and from
    the game-over screen the score of the last run stays too. *)
Lemma start_without_wallet_does_not_start :
  let w := mkWallet false None in
  let fresh_app := initialApp emptyStorage in
  let over := handleGameOver 120 (initialApp emptyStorage) in
  startGame w fresh_app = (fresh_app, [openConnect]) /\
  gameState (fst (startGame w fresh_app)) <> PLAYING /\
  gameState (fst (startGame w over)) = GAMEOVER /\
  score (fst (startGame w over)) = 120%Z.
Proof.
  cbn. repeat split. discriminate.
Qed.

(** C2 (amended): with a connected wallet, whatever its address and the
    balance shown, [startGame] sets the score to 0 and the phase to
    playing from any screen and touches nothing else; with no connected
    wallet it opens the connect view and leaves the state as it is. *)
Theorem startGame_gated_by_wallet (w : Wallet) (st : AppState) :
  startGame w st =
    (if isConnected w
     then (mkApp PLAYING (balance st) 0%Z (highScore st) (localStorage st), [])
     else (st, [openConnect])) /\
  (forall a : option string,
      score (fst (startGame (mkWallet true a) st)) = 0%Z /\
      gameState (fst (startGame (mkWallet true a) st)) = PLAYING /\
      snd (startGame (mkWallet true a) st) = []) /\
  (forall a : option string,
      startGame (mkWallet false a) st = (st, [openConnect])).
Proof.
  unfold startGame. split; [destruct (isConnected w); reflexivity |].
  split; intros a; cbn; auto.
Qed.

(** ** The decimal strings of the high score *)

Lemma digitValue_spec :
  digitValue "0" = Some 0%Z /\ digitValue "1" = Some 1%Z /\
  digitValue "2" = Some 2%Z /\ digitValue "3" = Some 3%Z /\
  digitValue "4" = Some 4%Z /\ digitValue "5" = Some 5%Z /\
  digitValue "6" = Some 6%Z /\ digitValue "7" = Some 7%Z /\
  digitValue "8" = Some 8%Z /\ digitValue "9" = Some 9%Z.
Proof. repeat split. Qed.

Lemma parseDigits_acc (d : Decimal.uint) :
  forall a : positive,
    parseDigits (NilEmpty.string_of_uint d) (Some (Z.pos a)) =
      Some (Z.pos (Pos.of_uint_acc d a)).
Proof.
  induction d; intros a; cbn [NilEmpty.string_of_uint parseDigits Pos.of_uint_acc];
    try reflexivity;
    match goal with
    | |- context [digitValue ?c] =>
        let v := eval vm_compute in (digitValue c) in
        change (digitValue c) with v
    end;
    rewrite <- IHd; f_equal; f_equal; lia.
Qed.

Lemma parseDigits_zero (d : Decimal.uint) :
  parseDigits (NilEmpty.string_of_uint d) (Some 0%Z) = Some (Z.of_N (Pos.of_uint d)).
Proof.
  induction d; cbn [NilEmpty.string_of_uint parseDigits Pos.of_uint];
    try reflexivity;
    match goal with
    | |- context [digitValue ?c] =>
        let v := eval vm_compute in (digitValue c) in
        change (digitValue c) with v
    end;
    cbn [Z.mul Z.add]; [exact IHd | apply parseDigits_acc ..].
Qed.

Lemma parseDigits_start (d : Decimal.uint) :
  d <> Decimal.Nil ->
  parseDigits (NilEmpty.string_of_uint d) None = Some (Z.of_N (Pos.of_uint d)).
Proof.
  destruct d; intros Hd; [now contradiction Hd | ..];
    cbn [NilEmpty.string_of_uint parseDigits Pos.of_uint];
    match goal with
    | |- context [digitValue ?c] =>
        let v := eval vm_compute in (digitValue c) in
        change (digitValue c) with v
    end;
    cbn [Z.mul Z.add]; [apply parseDigits_zero | apply parseDigits_acc ..].
Qed.

Lemma parseInt_unsigned (c : ascii) (s : string) :
  isWhiteSpace c = false -> c <> "-"%char -> c <> "+"%char ->
  parseInt (String c s) = num_of_digits 1 (parseDigits (String c s) None).
Proof.
  intros Hw Hm Hp. unfold parseInt. cbn [trimStart]. rewrite Hw.
  destruct c as [[] [] [] [] [] [] [] []]; try reflexivity;
    exfalso; (apply Hm; reflexivity) || (apply Hp; reflexivity).
Qed.

Lemma parseInt_minus (s : string) :
  parseInt (String "-" s) = num_of_digits (-1) (parseDigits s None).
Proof. reflexivity. Qed.

Lemma string_of_uint_head (d : Decimal.uint) :
  d <> Decimal.Nil ->
  exists c s,
    NilEmpty.string_of_uint d = String c s /\
    isWhiteSpace c = false /\ c <> "-"%char /\ c <> "+"%char.
Proof.
  destruct d; intros Hd; [now contradiction Hd | ..];
    cbn [NilEmpty.string_of_uint]; eexists; eexists;
    (split; [reflexivity |]); repeat split; discriminate.
Qed.

Lemma parseInt_digits (d : Decimal.uint) :
  d <> Decimal.Nil ->
  parseInt (NilEmpty.string_of_uint d) = Num (Z.of_N (Pos.of_uint d)) /\
  parseInt (String "-" (NilEmpty.string_of_uint d)) = Num (- Z.of_N (Pos.of_uint d)).
Proof.
  intros Hd. pose proof (parseDigits_start d Hd) as Hp. split.
  - destruct (string_of_uint_head d Hd) as (c & s & Hs & Hw & Hm & Hpl).
    rewrite Hs in *. rewrite (parseInt_unsigned c s Hw Hm Hpl), Hp.
    cbn [num_of_digits]. f_equal; lia.
  - rewrite parseInt_minus, Hp. cbn [num_of_digits]. f_equal; lia.
Qed.

Lemma parseInt_of_toString (z : Z) :
  safeInteger z -> parseInt (toString z) = Num z.
Proof.
  intros _. unfold toString. destruct z as [| p | p]; [reflexivity | |];
    cbn [Z.to_int NilZero.string_of_int];
    pose proof (DecimalPos.Unsigned.to_uint_nonnil p) as Hn;
    pose proof (DecimalPos.Unsigned.of_to p) as Hv;
    destruct (parseInt_digits (Pos.to_uint p) Hn) as (Hpos & Hneg);
    unfold NilZero.string_of_uint;
    destruct (Pos.to_uint p) eqn:E; try (now contradiction Hn);
    rewrite ?Hpos, ?Hneg, Hv; reflexivity.
Qed.

(** ** C9: the stored high score *)

Lemma writes_hold_no_read (l : list StorageCall) :
  Forall (fun c => isGet c = false /\ keyOf c = HIGHSCORE_KEY) l ->
  filter isGet l = [].
Proof.
  induction 1 as [| c l (Hg & _) _ IH]; [reflexivity |].
  cbn [filter]. now rewrite Hg.
Qed.

Lemma mountApp_readOnce (stored : string -> option string) :
  readOnce (mountApp (mkStorage stored [])).
Proof.
  exists []. split; [| constructor].
  unfold mountApp, loadHighScore, getItem. cbn [initialApp localStorage items calls app].
  destruct (stored HIGHSCORE_KEY) as [[| c s] |]; reflexivity.
Qed.

Lemma handleGameOver_storage (finalScore : Z) (st : AppState) :
  localStorage (handleGameOver finalScore st) =
    (if num_gtb finalScore (highScore st)
     then setItem HIGHSCORE_KEY (toString finalScore) (localStorage st)
     else localStorage st).
Proof.
  unfold handleGameOver. destruct (num_gtb finalScore (highScore st)); reflexivity.
Qed.

Lemma appStep_readOnce (st : AppState) (a : AppAction) :
  readOnce st -> readOnce (appStep st a).
Proof.
  intros (writes & Hc & Hw). destruct a as [w | e]; cbn [appStep].
  - unfold startGame. destruct (negb (isConnected w)); exists writes; auto.
  - destruct e as [n | n | | |]; cbn [deliver]; try (exists writes; auto; fail).
    unfold readOnce. rewrite handleGameOver_storage.
    destruct (num_gtb n (highScore st)); [| exists writes; auto].
    exists (writes ++ [setItemCall HIGHSCORE_KEY (toString n)]).
    cbn [setItem calls]. rewrite Hc. split; [reflexivity |].
    apply Forall_app. split; [exact Hw |]. repeat constructor.
Qed.

Lemma appRun_readOnce (acts : list AppAction) :
  forall st, readOnce st -> readOnce (appRun acts st).
Proof.
  unfold appRun. induction acts as [| a rest IH]; intros st H; cbn [fold_left].
  - exact H.
  - apply IH. now apply appStep_readOnce.
Qed.

Lemma highScore_mountApp (ls : Storage) :
  highScore (mountApp ls) =
    match items ls HIGHSCORE_KEY with
    | Some (String c s) => parseInt (String c s)
    | _ => Num 0
    end.
Proof.
  unfold mountApp, loadHighScore, getItem. cbn [initialApp localStorage].
  destruct (items ls HIGHSCORE_KEY) as [[| c s] |]; reflexivity.
Qed.

Lemma calls_mountApp (stored : string -> option string) :
  calls (localStorage (mountApp (mkStorage stored []))) = [getItemCall HIGHSCORE_KEY].
Proof.
  unfold mountApp, loadHighScore, getItem. cbn [initialApp localStorage items calls app].
  destruct (stored HIGHSCORE_KEY) as [[| c s] |]; reflexivity.
Qed.

(** C9: when the component mounts it reads the high-score key once and
    takes what it finds as the high score: 0 when the key is absent or
    holds the empty string, NaN when the item does not start with a
    number, and the number it starts with otherwise (a safe integer: what
    [parseInt] makes of more digits is a rounded value); whatever happens
    afterwards there is no other read, and every call is about that key;
    and [handleGameOver] with final score S writes the string of S under
    the key (the decimal digits of S, which read back as S, when S is a
    safe integer), and makes S the high score, exactly when S is greater
    than the current high score: otherwise the storage and the high score
    are left as they are. *)
Theorem high_score_read_once_written_on_record
    (stored : string -> option string) (acts : list AppAction)
    (finalScore : Z) (st : AppState) :
  let loaded := mountApp (mkStorage stored []) in
  let st1 := appRun acts loaded in
  calls (localStorage loaded) = [getItemCall HIGHSCORE_KEY] /\
  (stored HIGHSCORE_KEY = None \/ stored HIGHSCORE_KEY = Some EmptyString ->
   highScore loaded = Num 0) /\
  (forall (saved : string) (n : Z),
      stored HIGHSCORE_KEY = Some saved -> parseInt saved = Num n -> safeInteger n ->
      highScore loaded = Num n) /\
  (forall saved : string,
      stored HIGHSCORE_KEY = Some saved -> saved <> EmptyString ->
      parseInt saved = NaN ->
      highScore loaded = NaN) /\
  filter isGet (calls (localStorage st1)) = [getItemCall HIGHSCORE_KEY] /\
  hd_error (calls (localStorage st1)) = Some (getItemCall HIGHSCORE_KEY) /\
  Forall (fun c => keyOf c = HIGHSCORE_KEY) (calls (localStorage st1)) /\
  (exists v : string,
      localStorage (handleGameOver finalScore st) =
        (if num_gtb finalScore (highScore st)
         then setItem HIGHSCORE_KEY v (localStorage st)
         else localStorage st) /\
      items (localStorage (handleGameOver finalScore st)) HIGHSCORE_KEY =
        (if num_gtb finalScore (highScore st)
         then Some v
         else items (localStorage st) HIGHSCORE_KEY) /\
      (safeInteger finalScore -> v = toString finalScore /\ parseInt v = Num finalScore)) /\
  highScore (handleGameOver finalScore st) =
    (if num_gtb finalScore (highScore st) then Num finalScore else highScore st) /\
  (forall h : Z, num_gtb finalScore (Num h) = true <-> (h < finalScore)%Z).
Proof.
  intros loaded st1.
  assert (Hload : highScore loaded =
            match stored HIGHSCORE_KEY with
            | Some (String c s) => parseInt (String c s)
            | _ => Num 0
            end) by (unfold loaded; now rewrite highScore_mountApp).
  split; [apply calls_mountApp |].
  split; [intros [H | H]; rewrite Hload, H; reflexivity |].
  split.
  { intros saved n Hs Hp _. rewrite Hload, Hs.
    destruct saved as [| c s]; [discriminate Hp | exact Hp]. }
  split.
  { intros saved Hs Hne Hp. rewrite Hload, Hs.
    destruct saved as [| c s]; [now contradiction Hne | exact Hp]. }
  destruct (appRun_readOnce acts _ (mountApp_readOnce stored)) as (writes & Hc & Hw).
  fold loaded in Hc. fold st1 in Hc. rewrite Hc.
  split; [cbn [filter isGet]; f_equal; now apply writes_hold_no_read |].
  split; [reflexivity |].
  split.
  { constructor; [reflexivity |].
    eapply Forall_impl; [| exact Hw]. intros c (_ & Hk). exact Hk. }
  split.
  { exists (toString finalScore). split; [apply handleGameOver_storage |]. split.
    - rewrite handleGameOver_storage.
      destruct (num_gtb finalScore (highScore st)); reflexivity.
    - intros Hsafe. split; [reflexivity | now apply parseInt_of_toString]. }
  split.
  - unfold handleGameOver. destruct (num_gtb finalScore (highScore st)); reflexivity.
  - intros h. cbn [num_gtb]. apply Z.ltb_lt.
Qed.

(** * Further properties of the shell *)

(** ** The high score across sessions *)

Lemma items_mountApp (ls : Storage) :
  items (reload (mountApp ls)) = items ls.
Proof.
  unfold mountApp, loadHighScore, getItem. cbn [initialApp localStorage].
  destruct (items ls HIGHSCORE_KEY) as [[| c s] |]; reflexivity.
Qed.

Lemma toString_read_back (n : Z) :
  safeInteger n ->
  match toString n with
  | String c s => parseInt (String c s)
  | EmptyString => Num 0
  end = Num n.
Proof.
  intros Hn. pose proof (parseInt_of_toString n Hn) as H.
  destruct (toString n); [discriminate H | exact H].
Qed.

Lemma appStep_persisted (st : AppState) (a : AppAction) :
  Forall safeInteger (finalScores [a]) ->
  highScore (mountApp (reload st)) = highScore st ->
  highScore (mountApp (reload (appStep st a))) = highScore (appStep st a).
Proof.
  intros Hsafe H. destruct a as [w | e]; cbn [appStep].
  - unfold startGame. destruct (negb (isConnected w)); exact H.
  - destruct e as [n | n | | |]; cbn [deliver]; try exact H.
    cbn [finalScores] in Hsafe. apply Forall_inv in Hsafe.
    unfold handleGameOver. destruct (num_gtb n (highScore st)); [| exact H].
    rewrite highScore_mountApp.
    cbn [reload localStorage setItem items highScore].
    rewrite String.eqb_refl. now apply toString_read_back.
Qed.

Lemma finalScores_cons (a : AppAction) (rest : list AppAction) :
  finalScores (a :: rest) = finalScores [a] ++ finalScores rest.
Proof.
  destruct a as [w | e]; [reflexivity |]. destruct e; reflexivity.
Qed.

(** X2: at any moment of a session the stored item agrees with the high
    score on screen: when the final scores of the session are safe
    integers, a new session started on the storage as it stands loads
    exactly the high score the running one shows, whatever the storage
    held at first (nothing, an empty string, a number, anything else). *)
Theorem reload_shows_same_high_score
    (stored : string -> option string) (acts : list AppAction) :
  Forall safeInteger (finalScores acts) ->
  let st := appRun acts (mountApp (mkStorage stored [])) in
  highScore (mountApp (reload st)) = highScore st.
Proof.
  intros Hsafe. cbv zeta. unfold appRun.
  assert (H0 : highScore (mountApp (reload (mountApp (mkStorage stored [])))) =
               highScore (mountApp (mkStorage stored []))).
  { rewrite !highScore_mountApp. now rewrite items_mountApp. }
  revert H0. generalize (mountApp (mkStorage stored [])). revert Hsafe.
  induction acts as [| a rest IH]; intros Hsafe st H; cbn [fold_left].
  - exact H.
  - rewrite finalScores_cons in Hsafe. apply Forall_app in Hsafe as (Ha & Hrest).
    apply IH; [exact Hrest |]. now apply appStep_persisted.
Qed.

Lemma reload_shows_same_high_score_witness :
  Forall safeInteger
    (finalScores [canvasEvent (onGameOver 40); clickStart (mkWallet true None);
                  canvasEvent (onGameOver 1250)]) /\
  highScore (mountApp (reload (appRun
     [canvasEvent (onGameOver 40); clickStart (mkWallet true None);
      canvasEvent (onGameOver 1250)]
     (mountApp (mkStorage (fun _ => Some "17"%string) []))))) =
  highScore (appRun
     [canvasEvent (onGameOver 40); clickStart (mkWallet true None);
      canvasEvent (onGameOver 1250)]
     (mountApp (mkStorage (fun _ => Some "17"%string) []))).
Proof.
  assert (Hs : Forall safeInteger
            (finalScores [canvasEvent (onGameOver 40); clickStart (mkWallet true None);
                          canvasEvent (onGameOver 1250)])).
  { cbn [finalScores]. repeat constructor; unfold safeInteger, MAX_SAFE_INTEGER; lia. }
  split; [exact Hs |].
  exact (reload_shows_same_high_score (fun _ => Some "17"%string) _ Hs).
Defined.

(** X3: the high score after any run of the shell is the greatest of the
    high score before it and the final scores the canvas reported during
    it; in particular it never goes down. *)
Theorem high_score_is_running_maximum
    (acts : list AppAction) (st : AppState) (h : Z) :
  highScore st = Num h ->
  highScore (appRun acts st) = Num (fold_left Z.max (finalScores acts) h) /\
  (h <= fold_left Z.max (finalScores acts) h)%Z.
Proof.
  intros H. split.
  - unfold appRun. revert st h H.
    induction acts as [| a rest IH]; intros st h H; cbn [fold_left finalScores].
    + exact H.
    + destruct a as [w | e].
      * apply IH. cbn [appStep]. unfold startGame.
        destruct (negb (isConnected w)); exact H.
      * destruct e as [n | n | | |]; cbn [fold_left]; apply IH; cbn [appStep deliver];
          try exact H.
        unfold handleGameOver. rewrite H. cbn [num_gtb].
        destruct (Z.ltb_spec h n); cbn [highScore]; f_equal; lia.
  - clear H st. revert h.
    induction acts as [| a rest IH]; intros h; cbn [finalScores fold_left]; [lia |].
    destruct a as [w | e]; [apply IH |].
    destruct e as [n | n | | |]; cbn [fold_left]; try apply IH.
    specialize (IH (Z.max h n)). lia.
Qed.

Lemma high_score_is_running_maximum_witness :
  highScore (initialApp emptyStorage) = Num 0 /\
  highScore (appRun [canvasEvent (onGameOver 40); clickStart (mkWallet true None);
                     canvasEvent (onGameOver 25)]
               (initialApp emptyStorage)) = Num 40.
Proof.
  split; [reflexivity |].
  exact (proj1 (high_score_is_running_maximum
    [canvasEvent (onGameOver 40); clickStart (mkWallet true None);
     canvasEvent (onGameOver 25)] (initialApp emptyStorage) 0 eq_refl)).
Defined.

(** X4: a stored item that does not parse as a number disables the high
    score for good: once the high score is NaN no final score is ever
    greater, so every run leaves it NaN and the storage, items and calls,
    untouched. *)
Theorem unparsable_high_score_is_never_replaced
    (acts : list AppAction) (st : AppState) :
  highScore st = NaN ->
  highScore (appRun acts st) = NaN /\
  localStorage (appRun acts st) = localStorage st.
Proof.
  unfold appRun. revert st.
  induction acts as [| a rest IH]; intros st H; cbn [fold_left]; [auto |].
  assert (Hstep : highScore (appStep st a) = NaN /\
                  localStorage (appStep st a) = localStorage st).
  { destruct a as [w | e]; cbn [appStep].
    - unfold startGame. destruct (negb (isConnected w)); auto.
    - destruct e as [n | n | | |]; cbn [deliver]; auto.
      unfold handleGameOver. rewrite H. cbn [num_gtb]. auto. }
  destruct Hstep as (Hh & Hl). destruct (IH _ Hh) as (IH1 & IH2).
  split; [exact IH1 | congruence].
Qed.

Lemma unparsable_high_score_is_never_replaced_witness :
  highScore (mountApp (mkStorage (fun _ => Some "best"%string) [])) = NaN /\
  highScore (appRun [clickStart (mkWallet true None); canvasEvent (onGameOver 900)]
               (mountApp (mkStorage (fun _ => Some "best"%string) []))) = NaN.
Proof.
  split; [reflexivity |].
  exact (proj1 (unparsable_high_score_is_never_replaced
    [clickStart (mkWallet true None); canvasEvent (onGameOver 900)]
    (mountApp (mkStorage (fun _ => Some "best"%string) [])) eq_refl)).
Defined.

(** ** The phases of the shell *)

(** X5: the start screen is never shown again once it has been left: no
    click and no call of the canvas takes the shell back to [START]. *)
Theorem start_screen_is_never_reentered (acts : list AppAction) (st : AppState) :
  gameState st <> START -> gameState (appRun acts st) <> START.
Proof.
  unfold appRun. revert st.
  induction acts as [| a rest IH]; intros st H; cbn [fold_left]; [exact H |].
  apply IH. destruct a as [w | e]; cbn [appStep].
  - unfold startGame. destruct (negb (isConnected w)); [exact H | discriminate].
  - destruct e as [n | n | | |]; cbn [deliver]; try exact H.
    unfold handleGameOver. destruct (num_gtb n (highScore st)); discriminate.
Qed.

Lemma start_screen_is_never_reentered_witness :
  gameState (handleGameOver 10 (initialApp emptyStorage)) <> START /\
  gameState (appRun [clickStart (mkWallet false None); canvasEvent (onScoreUpdate 3)]
               (handleGameOver 10 (initialApp emptyStorage))) <> START.
Proof.
  assert (H : gameState (handleGameOver 10 (initialApp emptyStorage)) <> START)
    by (cbn; discriminate).
  split; [exact H |].
  exact (start_screen_is_never_reentered
    [clickStart (mkWallet false None); canvasEvent (onScoreUpdate 3)]
    (handleGameOver 10 (initialApp emptyStorage)) H).
Defined.

(** X6: the playing phase is entered only by a click on a start button
    with a wallet connected: a run of the shell in which no such click
    occurs, started outside the playing phase, never reaches it. *)
Theorem playing_needs_a_connected_click (acts : list AppAction) (st : AppState) :
  gameState st <> PLAYING ->
  forallb (fun a => negb (connectedClick a)) acts = true ->
  gameState (appRun acts st) <> PLAYING.
Proof.
  unfold appRun. revert st.
  induction acts as [| a rest IH]; intros st H Hacts; cbn [fold_left]; [exact H |].
  cbn [forallb] in Hacts. apply andb_prop in Hacts as (Ha & Hrest).
  apply IH; [| exact Hrest]. destruct a as [w | e]; cbn [appStep].
  - cbn [connectedClick] in Ha. unfold startGame. rewrite Ha. exact H.
  - destruct e as [n | n | | |]; cbn [deliver]; try exact H.
    unfold handleGameOver. destruct (num_gtb n (highScore st)); discriminate.
Qed.

Lemma playing_needs_a_connected_click_witness :
  gameState (initialApp emptyStorage) <> PLAYING /\
  gameState (appRun [clickStart (mkWallet false None); canvasEvent (onGameOver 5);
                     clickStart (mkWallet false (Some "0xabc"%string))]
               (initialApp emptyStorage)) <> PLAYING.
Proof.
  assert (H : gameState (initialApp emptyStorage) <> PLAYING) by (cbn; discriminate).
  split; [exact H |].
  exact (playing_needs_a_connected_click
    [clickStart (mkWallet false None); canvasEvent (onGameOver 5);
     clickStart (mkWallet false (Some "0xabc"%string))]
    (initialApp emptyStorage) H eq_refl).
Defined.

(** ** The address shown *)

Lemma length_takeChars (n : nat) :
  forall s, String.length (takeChars n s) = Nat.min n (String.length s).
Proof.
  induction n as [| n IH]; intros [| c s]; cbn [takeChars String.length]; auto.
  rewrite IH. reflexivity.
Qed.

Lemma length_dropChars (n : nat) :
  forall s, String.length (dropChars n s) = (String.length s - n)%nat.
Proof.
  induction n as [| n IH]; intros [| c s]; cbn [dropChars String.length]; auto.
Qed.

Lemma take_drop_chars (n : nat) :
  forall s, (takeChars n s ++ dropChars n s)%string = s.
Proof.
  induction n as [| n IH]; intros [| c s]; cbn [takeChars dropChars String.append]; auto.
  now rewrite IH.
Qed.

Lemma dropChars_dropChars (a : nat) :
  forall b s, dropChars a (dropChars b s) = dropChars (b + a) s.
Proof.
  intros b. induction b as [| b IH]; intros s; cbn [dropChars Nat.add]; [reflexivity |].
  destruct s as [| c s]; [| apply IH].
  destruct a; reflexivity.
Qed.

Lemma length_append_chars (a b : string) :
  String.length (a ++ b)%string = (String.length a + String.length b)%nat.
Proof.
  induction a as [| c a IH]; cbn [String.append String.length];
    [reflexivity | now rewrite IH].
Qed.

(** X7: the short form of an address has [min(6, n) + 3 + min(4, n)]
    characters for an address of n characters, so at most 13; from 10
    characters on it is the first six and the last four characters of the
    address around the dots, with nothing of the address shown twice; and
    an address shorter than 13 characters is not made shorter. *)
Theorem truncateAddress_shape (addr : string) :
  let n := String.length addr in
  String.length (truncateAddress addr) = (Nat.min 6 n + 3 + Nat.min 4 n)%nat /\
  (10 <= n ->
     String.length (truncateAddress addr) = 13%nat /\
     exists mid, addr = (sliceHead addr ++ mid ++ sliceTail addr)%string)%nat /\
  (n < 13 -> n <= String.length (truncateAddress addr))%nat.
Proof.
  cbv zeta. unfold truncateAddress, sliceHead, sliceTail.
  assert (Hlen : String.length
            (takeChars 6 addr ++ "..." ++ dropChars (String.length addr - 4) addr)%string
          = (Nat.min 6 (String.length addr) + 3 + Nat.min 4 (String.length addr))%nat).
  { rewrite !length_append_chars, length_takeChars, length_dropChars.
    cbn [String.length]. lia. }
  split; [exact Hlen | split].
  - intros Hn. split; [rewrite Hlen; lia |].
    exists (takeChars (String.length addr - 10) (dropChars 6 addr)).
    replace (dropChars (String.length addr - 4) addr)
      with (dropChars (String.length addr - 10) (dropChars 6 addr))
      by (rewrite dropChars_dropChars; f_equal; lia).
    now rewrite !take_drop_chars.
  - intros Hn. rewrite Hlen. lia.
Qed.

(** * Further properties of the simulator *)

(** ** The obstacles after a frame *)

(** X8: after a playing frame on a mounted canvas no obstacle left in the
    state overlaps the player, and none is below the bottom edge of the
    canvas: whatever collided or left the canvas in this frame is gone. *)
Theorem remaining_obstacles_are_clear
    (rnd : nat -> R) (dt : R) (r : Refs) (canvas : Canvas) :
  canvasRef r = Some canvas ->
  let r' := fst (update rnd PLAYING dt r) in
  forall o', In o' (obstaclesRef r') ->
    collides (playerRef r') o' = false /\ o_y o' <= height canvas.
Proof.
  intros Hc r' o' Hin.
  destruct (update_spec rnd dt r canvas Hc) as (_ & Hp & Hkept & _).
  fold r' in Hp, Hkept. rewrite Hkept in Hin. rewrite Hp.
  apply in_map_iff in Hin as (o & <- & Hin).
  apply filter_In in Hin as (_ & Hs). unfold stays, hits in Hs.
  apply andb_prop in Hs as (Hh & Hb).
  apply negb_true_iff in Hh. apply negb_true_iff in Hb.
  split; [exact Hh |]. unfold Rgtb in Hb. now apply Rltb_false in Hb.
Qed.

Lemma remaining_obstacles_are_clear_witness :
  canvasRef crowded = Some (mkCanvas 800 600) /\
  forall o', In o' (obstaclesRef (fst (update (fun _ => 0) PLAYING 16.66 crowded))) ->
    collides (playerRef (fst (update (fun _ => 0) PLAYING 16.66 crowded))) o' = false /\
    o_y o' <= height (mkCanvas 800 600).
Proof.
  split; [reflexivity |].
  exact (remaining_obstacles_are_clear (fun _ => 0) 16.66 crowded
           (mkCanvas 800 600) eq_refl).
Defined.

(** X9: a playing frame only moves obstacles down: every obstacle left
    after it is an obstacle of the state before, or the one this frame
    spawned, with the same x, width, height, colour and speed and its y
    advanced by [speed * dt / 16.66]; and the frame adds at most one
    obstacle, none when the spawn timer has not run out. *)
Theorem obstacles_only_fall
    (rnd : nat -> R) (dt : R) (r : Refs) (canvas : Canvas) :
  canvasRef r = Some canvas ->
  let r' := fst (update rnd PLAYING dt r) in
  (forall o', In o' (obstaclesRef r') ->
     exists o,
       (In o (obstaclesRef r) \/
        (spawnTimerRef r - dt <= 0 /\
         o = spawnObstacle rnd canvas (beforeSpawn dt r))) /\
       o_x o' = o_x o /\ o_width o' = o_width o /\ o_height o' = o_height o /\
       o_color o' = o_color o /\ o_speed o' = o_speed o /\
       o_y o' = o_y o + o_speed o * (dt / 16.66)) /\
  (List.length (obstaclesRef r') <= S (List.length (obstaclesRef r)))%nat /\
  (0 < spawnTimerRef r - dt ->
   (List.length (obstaclesRef r') <= List.length (obstaclesRef r))%nat).
Proof.
  intros Hc r'.
  destruct (update_spec rnd dt r canvas Hc) as (_ & _ & Hkept & _).
  fold r' in Hkept.
  assert (Hlen : (List.length (obstaclesRef r') <=
                  List.length (obstaclesRef (beforePass rnd canvas dt r)))%nat).
  { rewrite Hkept, length_map. apply filter_length_le. }
  destruct (Rle_or_lt (spawnTimerRef r - dt) 0) as [Hs | Hw].
  - destruct (beforePass_spawns rnd canvas dt r Hs) as (Ho & _).
    split; [| split; [| intros; lra]].
    + intros o' Hin. rewrite Hkept in Hin.
      apply in_map_iff in Hin as (o & <- & Hin).
      apply filter_In in Hin as (Hin & _). rewrite Ho in Hin.
      exists o. split; [| repeat split].
      apply in_app_or in Hin as [Hin | [<- | []]]; auto.
    + rewrite Ho, length_app in Hlen. cbn [List.length] in Hlen. lia.
  - destruct (beforePass_waits rnd canvas dt r Hw) as (Ho & _).
    rewrite Ho in Hlen. split; [| split; [lia | intros _; exact Hlen]].
    intros o' Hin. rewrite Hkept in Hin.
    apply in_map_iff in Hin as (o & <- & Hin).
    apply filter_In in Hin as (Hin & _). rewrite Ho in Hin.
    exists o. split; [now left | repeat split].
Qed.

Lemma obstacles_only_fall_witness :
  canvasRef lonely = Some (mkCanvas 800 600) /\
  (List.length (obstaclesRef (fst (update (fun _ => 0%R) PLAYING 16.66%R lonely)))
   <= S (List.length (obstaclesRef lonely)))%nat.
Proof.
  split; [reflexivity |].
  exact (proj1 (proj2 (obstacles_only_fall (fun _ => 0) 16.66 lonely
                         (mkCanvas 800 600) eq_refl))).
Defined.

(** ** The difficulty ramp *)

Lemma handleMove_keeps (gs : GameState) (dir : Direction) (r : Refs) :
  let r' := fst (handleMove gs dir r) in
  sameGame (set_playerRef (playerRef r') r) r' /\
  particlesRef r' = particlesRef r /\ randomCalls r' = randomCalls r /\
  p_x (playerRef r') = p_x (playerRef r) /\
  p_y (playerRef r') = p_y (playerRef r) /\
  p_width (playerRef r') = p_width (playerRef r) /\
  p_height (playerRef r') = p_height (playerRef r) /\
  p_color (playerRef r') = p_color (playerRef r).
Proof.
  unfold handleMove, sameGame.
  destruct (negb (GameState_eqb gs PLAYING)); [cbn; repeat split |].
  destruct (canvasRef r) as [canvas |]; [| cbn; repeat split].
  destruct dir; cbn; repeat split.
Qed.

Lemma canvasStep_ramp (rnd : nat -> R) (st : Refs * list Event) (a : CanvasAction) :
  canvasRef (fst st) <> None ->
  let st' := canvasStep rnd st a in
  canvasRef (fst st') = canvasRef (fst st) /\
  currentFallSpeedRef (fst st') =
    currentFallSpeedRef (fst st) + SPEED_INCREMENT * playingTime [a] /\
  currentDifficultyRef (fst st') =
    currentDifficultyRef (fst st) + (SPEED_INCREMENT / 8) * playingTime [a].
Proof.
  intros Hc. unfold canvasStep. destruct a as [gs dir | gs dt].
  - destruct (handleMove_keeps gs dir (fst st)) as ((Hcv & _ & _ & _ & _ & Hd & Hf) & _).
    destruct (handleMove gs dir (fst st)) as [r' ev].
    cbn [fst playingTime set_playerRef canvasRef currentDifficultyRef
         currentFallSpeedRef] in *.
    rewrite Hcv, Hd, Hf. repeat split; lra.
  - destruct gs.
    1,3: rewrite update_idle by (left; discriminate); cbn; repeat split; lra.
    destruct (canvasRef (fst st)) as [canvas |] eqn:E; [| congruence].
    destruct (update_spec rnd dt (fst st) canvas E) as (H1 & _ & _ & _ & H5 & H6 & _).
    destruct (update rnd PLAYING dt (fst st)) as [r' ev]. cbn [fst playingTime] in *.
    rewrite H1, H5, H6. repeat split; lra.
Qed.

Lemma fold_ramp (rnd : nat -> R) (acts : list CanvasAction) :
  forall st,
    canvasRef (fst st) <> None ->
    let st' := fold_left (canvasStep rnd) acts st in
    canvasRef (fst st') = canvasRef (fst st) /\
    currentFallSpeedRef (fst st') =
      currentFallSpeedRef (fst st) + SPEED_INCREMENT * playingTime acts /\
    currentDifficultyRef (fst st') =
      currentDifficultyRef (fst st) + (SPEED_INCREMENT / 8) * playingTime acts.
Proof.
  induction acts as [| a rest IH]; intros st Hc; cbn [fold_left].
  - cbn. repeat split; lra.
  - destruct (canvasStep_ramp rnd st a Hc) as (Hcv & Hf & Hd).
    assert (Hc' : canvasRef (fst (canvasStep rnd st a)) <> None) by (rewrite Hcv; exact Hc).
    destruct (IH _ Hc') as (Hcv' & Hf' & Hd'). cbv zeta.
    rewrite Hcv', Hf', Hd', Hcv, Hf, Hd, (playingTime_cons a rest).
    repeat split; lra.
Qed.

(** X10: the base fall speed and the difficulty grow linearly with the
    playing time and with nothing else: after a reset and any run with
    playing time T (in ms) the base speed is [4 + 0.00015 * T] and the
    difficulty [1 + 0.00001875 * T], whatever was steered, dodged or
    hit. *)
Theorem speed_and_difficulty_ramp
    (rnd : nat -> R) (W H : R) (r0 : Refs) (acts : list CanvasAction) :
  let r := fst (canvasRun rnd acts (fst (resize W H r0))) in
  currentFallSpeedRef r = 4 + 0.00015 * playingTime acts /\
  currentDifficultyRef r = 1 + 0.00001875 * playingTime acts.
Proof.
  cbv zeta. unfold canvasRun.
  assert (Hc : canvasRef (fst (fst (resize W H r0), @nil Event)) <> None)
    by (cbn; discriminate).
  destruct (fold_ramp rnd acts _ Hc) as (_ & Hf & Hd).
  rewrite Hf, Hd. cbn. unfold INITIAL_FALL_SPEED, SPEED_INCREMENT. split; lra.
Qed.

Lemma fold_left_snoc (rnd : nat -> R) (acts : list CanvasAction) (a : CanvasAction)
    (st : Refs * list Event) :
  fold_left (canvasStep rnd) (acts ++ [a]) st =
    canvasStep rnd (fold_left (canvasStep rnd) acts st) a.
Proof. now rewrite fold_left_app. Qed.

(** X11: the spawn interval in closed form.  In a run since the last
    reset, a playing frame that spawns when the playing time has reached T
    (a non-negative number of ms, this frame included) sets the timer to
    [max(350, 1000 / (1 + 0.00001875 * T))]: that is
    [1000 / (1 + 0.00001875 * T)] as long as [0.00013125 * T <= 13]
    (about the first 99 seconds of play) and the floor of 350 from then
    on. *)
Theorem spawn_interval_closed_form
    (rnd : nat -> R) (W H : R) (r0 : Refs) (acts : list CanvasAction) (dt : R) :
  let r := fst (canvasRun rnd acts (fst (resize W H r0))) in
  let T := playingTime acts + dt in
  let timer := spawnTimerRef (fst (update rnd PLAYING dt r)) in
  spawnTimerRef r - dt <= 0 ->
  0 <= T ->
  timer = Rmax 350 (1000 / (1 + 0.00001875 * T)) /\
  (0.00013125 * T <= 13 -> timer = 1000 / (1 + 0.00001875 * T)) /\
  (13 <= 0.00013125 * T -> timer = 350).
Proof.
  intros r T timer Hspawn HT.
  assert (Hc0 : canvasRef (fst (fst (resize W H r0), @nil Event)) <> None)
    by (cbn; discriminate).
  destruct (fold_ramp rnd acts _ Hc0) as (Hcv & _ & Hd).
  change (fst (fold_left (canvasStep rnd) acts (fst (resize W H r0), []))) with r in Hcv, Hd.
  assert (Hc : canvasRef r = Some (mkCanvas W H)) by (rewrite Hcv; reflexivity).
  destruct (update_spec rnd dt r (mkCanvas W H) Hc) as (_ & _ & _ & H4 & _).
  destruct (beforePass_spawns rnd (mkCanvas W H) dt r Hspawn) as (_ & Ht).
  assert (Htimer : timer = Rmax 350 (1000 / (1 + 0.00001875 * T))).
  { unfold timer. rewrite H4, Ht, Hd. cbn [fst resize initGame canvasRef currentDifficultyRef].
    unfold SPEED_INCREMENT, T. f_equal. f_equal. lra. }
  assert (Hpos : 0 < 1 + 0.00001875 * T) by lra.
  set (d := 1 + 0.00001875 * T) in *.
  assert (Hq : 1000 / d * d = 1000) by (field; lra).
  split; [exact Htimer | split]; intros Hcase; rewrite Htimer.
  - apply Rmax_right. assert (350 * d <= 1000) by (unfold d; lra). nra.
  - apply Rmax_left. assert (1000 <= 350 * d) by (unfold d; lra). nra.
Qed.

Lemma spawn_interval_closed_form_witness :
  spawnTimerRef (fst (canvasRun (fun _ => 0) [] (fst (resize 800 600 initialRefs)))) - 16 <= 0 /\
  0 <= playingTime [] + 16 /\
  spawnTimerRef (fst (update (fun _ => 0) PLAYING 16
    (fst (canvasRun (fun _ => 0) [] (fst (resize 800 600 initialRefs)))))) =
  Rmax 350 (1000 / (1 + 0.00001875 * (playingTime [] + 16))).
Proof.
  assert (H1 : spawnTimerRef (fst (canvasRun (fun _ => 0) []
                  (fst (resize 800 600 initialRefs)))) - 16 <= 0) by (cbn; lra).
  assert (H2 : 0 <= playingTime [] + 16) by (cbn; lra).
  split; [exact H1 | split; [exact H2 |]].
  exact (proj1 (spawn_interval_closed_form (fun _ => 0) 800 600 initialRefs [] 16 H1 H2)).
Defined.

(** ** The easing over many frames *)

Lemma easePlayer_gap (dt : R) (p : Player) :
  p_targetX (easePlayer dt p) = p_targetX p /\
  p_targetX (easePlayer dt p) - p_x (easePlayer dt p) =
    (p_targetX p - p_x p) * Rpower 0.001 (dt / 1000).
Proof.
  unfold easePlayer. cbn [p_targetX p_x]. split; [reflexivity | ring].
Qed.

Lemma pow_001_0 : Rpower 0.001 (0 / 1000) = 1.
Proof.
  replace (0 / 1000) with 0 by lra. apply Rpower_O. lra.
Qed.

Lemma fold_easing (rnd : nat -> R) (canvas : Canvas) (acts : list CanvasAction) :
  forallb isFrame acts = true ->
  forall st,
    canvasRef (fst st) = Some canvas ->
    let r' := fst (fold_left (canvasStep rnd) acts st) in
    p_targetX (playerRef r') = p_targetX (playerRef (fst st)) /\
    p_targetX (playerRef r') - p_x (playerRef r') =
      (p_targetX (playerRef (fst st)) - p_x (playerRef (fst st)))
      * Rpower 0.001 (playingTime acts / 1000).
Proof.
  induction acts as [| a rest IH]; intros Hf st Hc; cbn [fold_left].
  - cbn [playingTime]. rewrite pow_001_0. split; [reflexivity | ring].
  - cbn [forallb] in Hf. apply andb_prop in Hf as (Ha & Hrest).
    destruct a as [gs dir | gs dt]; [discriminate Ha |].
    assert (Hstep : canvasRef (fst (canvasStep rnd st (frame gs dt))) = Some canvas /\
                    playerRef (fst (canvasStep rnd st (frame gs dt))) =
                      match gs with
                      | PLAYING => easePlayer dt (playerRef (fst st))
                      | _ => playerRef (fst st)
                      end).
    { unfold canvasStep.
      pose proof (update_canvasRef rnd gs dt (fst st)) as H1.
      pose proof (update_playerRef rnd gs dt (fst st)) as H2.
      destruct (update rnd gs dt (fst st)) as [r1 ev]. cbn [fst] in *.
      rewrite H1, H2, Hc. split; [reflexivity | destruct gs; reflexivity]. }
    destruct Hstep as (Hc' & Hp').
    destruct (IH Hrest _ Hc') as (Ht & Hg). cbv zeta.
    destruct (easePlayer_gap dt (playerRef (fst st))) as (E1 & E2).
    split.
    + rewrite Ht, Hp'. destruct gs; [reflexivity | exact E1 | reflexivity].
    + rewrite Hg, Hp'. destruct gs; cbn [playingTime].
      1,3: reflexivity.
      rewrite E2, pow_001_split. ring.
Qed.

(** X12: between two steering intents the player closes in on its target
    geometrically in the playing time, however the time is cut into
    frames: over frames with playing time T the distance to the target is
    multiplied by [0.001 ^ (T / 1000)], so after one second of play one
    thousandth of it is left; the target itself does not move. *)
Theorem easing_closed_form
    (rnd : nat -> R) (acts : list CanvasAction) (r : Refs) (canvas : Canvas) :
  canvasRef r = Some canvas ->
  forallb isFrame acts = true ->
  let p := playerRef r in
  let p' := playerRef (fst (canvasRun rnd acts r)) in
  p_targetX p' = p_targetX p /\
  p_targetX p' - p_x p' =
    (p_targetX p - p_x p) * Rpower 0.001 (playingTime acts / 1000) /\
  (playingTime acts = 1000 ->
   p_targetX p' - p_x p' = (p_targetX p - p_x p) * 0.001).
Proof.
  intros Hc Hf p p'.
  destruct (fold_easing rnd canvas acts Hf (r, []) Hc) as (Ht & Hg).
  split; [exact Ht | split; [exact Hg |]].
  intros HT. unfold p', canvasRun. rewrite Hg, HT.
  replace (1000 / 1000) with 1 by lra. rewrite Rpower_1 by lra. reflexivity.
Qed.

Lemma easing_closed_form_witness :
  canvasRef lonely = Some (mkCanvas 800 600) /\
  forallb isFrame [frame PLAYING 400; frame START 50; frame PLAYING 600] = true /\
  p_targetX (playerRef (fst (canvasRun (fun _ => 0)
     [frame PLAYING 400; frame START 50; frame PLAYING 600] lonely))) =
  p_targetX (playerRef lonely).
Proof.
  split; [reflexivity | split; [reflexivity |]].
  exact (proj1 (easing_closed_form (fun _ => 0)
     [frame PLAYING 400; frame START 50; frame PLAYING 600] lonely (mkCanvas 800 600)
     eq_refl eq_refl)).
Defined.

(** X13: a playing frame with a non-negative elapsed time never takes
    the player away from its target nor past it: the new x lies between
    the old x and the target, the distance to the target does not grow,
    the player stays on the same side of the target (or lands on it), and
    the target itself is unchanged. *)
Theorem easing_never_overshoots
    (rnd : nat -> R) (dt : R) (r : Refs) (canvas : Canvas) :
  canvasRef r = Some canvas ->
  0 <= dt ->
  let p := playerRef r in
  let p' := playerRef (fst (update rnd PLAYING dt r)) in
  p_targetX p' = p_targetX p /\
  Rmin (p_x p) (p_targetX p) <= p_x p' <= Rmax (p_x p) (p_targetX p) /\
  Rabs (p_targetX p' - p_x p') <= Rabs (p_targetX p - p_x p) /\
  0 <= (p_targetX p' - p_x p') * (p_targetX p - p_x p).
Proof.
  intros Hc Hdt p p'.
  assert (Hp : p' = easePlayer dt p).
  { unfold p'. rewrite update_playerRef, Hc. reflexivity. }
  destruct (easePlayer_gap dt p) as (Ht & Hg). rewrite <- Hp in Ht, Hg.
  pose proof (pow_001_pos (dt / 1000)) as Hk0.
  assert (Hk1 : Rpower 0.001 (dt / 1000) <= 1) by (apply pow_001_le_1; lra).
  set (k := Rpower 0.001 (dt / 1000)) in *.
  set (g := p_targetX p - p_x p) in *.
  assert (Hx : p_x p' = p_targetX p - g * k) by lra.
  split; [exact Ht | split; [| split]].
  - rewrite Hx. unfold Rmin, Rmax, g. destruct (Rle_dec (p_x p) (p_targetX p)); split; nra.
  - rewrite Hg, Rabs_mult, (Rabs_right k) by lra.
    pose proof (Rabs_pos g). nra.
  - rewrite Hg. assert (0 <= g * g) by nra. nra.
Qed.

Lemma easing_never_overshoots_witness :
  canvasRef (fst (handleMove PLAYING Left (fst (resize 800 600 initialRefs)))) =
    Some (mkCanvas 800 600) /\
  0 <= 6000 /\
  p_targetX (playerRef (fst (update (fun _ => 0) PLAYING 6000
        (fst (handleMove PLAYING Left (fst (resize 800 600 initialRefs))))))) =
  p_targetX (playerRef (fst (handleMove PLAYING Left (fst (resize 800 600 initialRefs))))).
Proof.
  assert (H1 : canvasRef (fst (handleMove PLAYING Left (fst (resize 800 600 initialRefs)))) =
               Some (mkCanvas 800 600)) by reflexivity.
  assert (H2 : 0 <= 6000) by lra.
  split; [exact H1 | split; [exact H2 |]].
  exact (proj1 (easing_never_overshoots (fun _ => 0) 6000 _ (mkCanvas 800 600) H1 H2)).
Defined.

(** ** The tilt of the sprite *)

(** X14: the tilt drawn for the player is always within a quarter of a
    radian either way; it is proportional to the distance to the target
    ([0.008 * dx]) while that distance is at most 31.25 pixels and
    saturates beyond. *)
Theorem tilt_saturates (p : Player) :
  let dx := p_targetX p - p_x p in
  -0.25 <= tilt p <= 0.25 /\
  (-31.25 <= dx <= 31.25 -> tilt p = dx * 0.008) /\
  (31.25 <= dx -> tilt p = 0.25) /\
  (dx <= -31.25 -> tilt p = -0.25).
Proof.
  cbv zeta. unfold tilt, Rmax, Rmin.
  repeat split; try intros Hdx;
    destruct (Rle_dec 0.25 _); destruct (Rle_dec (-0.25) _); lra.
Qed.

(** ** The burst of an explosion *)

Lemma explosionLoop_emits (rnd : nat -> R) (x y : R) (c : string) (todo : nat) :
  forall r,
    particlesRef (explosionLoop rnd todo x y c r) =
      particlesRef r ++
      map (fun i => explosionParticle rnd x y c (randomCalls r + 3 * i)) (seq 0 todo) /\
    randomCalls (explosionLoop rnd todo x y c r) = (randomCalls r + 3 * todo)%nat.
Proof.
  induction todo as [| n IH]; intros r; cbn [explosionLoop].
  - cbn [seq map]. rewrite app_nil_r. split; [reflexivity | lia].
  - match goal with |- context [explosionLoop rnd n x y c ?r1] =>
      destruct (IH r1) as (Hp & Hc) end.
    rewrite Hp, Hc. cbn [set_randomCalls set_particlesRef particlesRef randomCalls].
    split; [| lia]. rewrite <- app_assoc. f_equal.
    cbn [seq map app]. rewrite <- seq_shift, map_map. f_equal.
    + f_equal. lia.
    + apply map_ext. intros i. f_equal. lia.
Qed.

Lemma explosionParticle_burst (rnd : nat -> R) (x y : R) (c : string) (n : nat) :
  (forall k, 0 <= rnd k < 1) ->
  burstParticle x y c (explosionParticle rnd x y c n).
Proof.
  intros Hr. unfold burstParticle, explosionParticle.
  cbn [pt_x pt_y pt_color pt_life pt_maxLife pt_size pt_vx pt_vy].
  pose proof (Hr n) as H0. pose proof (Hr (n + 1)%nat) as H1.
  pose proof (Hr (n + 2)%nat) as H2.
  pose proof (sin2_cos2 (rnd n * PI * 2)) as Hsc. unfold Rsqr in Hsc.
  set (sn := sin (rnd n * PI * 2)) in *. set (cs := cos (rnd n * PI * 2)) in *.
  set (sp := 2 + rnd (n + 1)%nat * 6) in *.
  assert (Hv : cs * sp * (cs * sp) + sn * sp * (sn * sp) = sp * sp).
  { replace (cs * sp * (cs * sp) + sn * sp * (sn * sp))
      with (sp * sp * (sn * sn + cs * cs)) by ring.
    rewrite Hsc. ring. }
  rewrite Hv. assert (2 <= sp < 8) by (unfold sp; lra).
  repeat split; try lra; nra.
Qed.

(** X15: with every draw of [Math.random] in [0, 1), an explosion adds
    exactly 25 particles after the ones already there, all at the given
    point and in the given colour, new (life and maximal life 1), of size
    in [2, 6) and of speed in [2, 8) (the square of the velocity lies in
    [4, 64)); it makes one call for the crash sound and changes nothing
    else of the game. *)
Theorem explosion_burst
    (rnd : nat -> R) (x y : R) (color : string) (r : Refs) :
  (forall k, 0 <= rnd k < 1) ->
  let res := createExplosion rnd x y color r in
  exists emitted,
    particlesRef (fst res) = particlesRef r ++ emitted /\
    List.length emitted = 25%nat /\
    Forall (burstParticle x y color) emitted /\
    snd res = [playCrashSound] /\
    sameGame r (fst res).
Proof.
  intros Hr res. unfold res, createExplosion. cbn [fst snd].
  destruct (explosionLoop_emits rnd x y color 25 r) as (Hp & _).
  destruct (explosionLoop_spec rnd 25 x y color r) as (Hsame & _).
  eexists. split; [exact Hp |]. split; [now rewrite length_map, length_seq |].
  split; [| split; [reflexivity | exact Hsame]].
  apply Forall_forall. intros q Hq. apply in_map_iff in Hq as (i & <- & _).
  now apply explosionParticle_burst.
Qed.

Lemma explosion_burst_witness :
  (forall k : nat, 0 <= (fun _ : nat => 1 / 2) k < 1) /\
  exists emitted,
    particlesRef (fst (createExplosion (fun _ => 1 / 2) 400 384 RED_VULN initialRefs)) =
      particlesRef initialRefs ++ emitted /\
    List.length emitted = 25%nat /\
    Forall (burstParticle 400 384 RED_VULN) emitted /\
    snd (createExplosion (fun _ => 1 / 2) 400 384 RED_VULN initialRefs) = [playCrashSound] /\
    sameGame initialRefs
      (fst (createExplosion (fun _ => 1 / 2) 400 384 RED_VULN initialRefs)).
Proof.
  assert (Hr : forall k : nat, 0 <= (fun _ : nat => 1 / 2) k < 1) by (intros k; lra).
  split; [exact Hr |].
  exact (explosion_burst (fun _ => 1 / 2) 400 384 RED_VULN initialRefs Hr).
Defined.

(** ** The life of a particle *)

Lemma advanceAll_nil (dts : list R) : advanceAll dts [] = [].
Proof.
  unfold advanceAll. induction dts as [| dt rest IH]; cbn [fold_left]; [reflexivity |].
  exact IH.
Qed.

Lemma total_nonneg (dts : list R) : Forall (fun dt => 0 <= dt) dts -> 0 <= total dts.
Proof.
  induction 1 as [| dt rest Hdt _ IH]; cbn [total]; lra.
Qed.

Lemma advanceAll_single (dts : list R) :
  Forall (fun dt => 0 <= dt) dts ->
  forall q,
    (0 < pt_life q - 0.02 * (total dts / 16.66) ->
     exists q',
       advanceAll dts [q] = [q'] /\
       pt_life q' = pt_life q - 0.02 * (total dts / 16.66) /\
       pt_x q' = pt_x q + pt_vx q * (total dts / 16.66) /\
       pt_y q' = pt_y q + pt_vy q * (total dts / 16.66) /\
       pt_vx q' = pt_vx q /\ pt_vy q' = pt_vy q) /\
    (dts <> [] -> pt_life q - 0.02 * (total dts / 16.66) <= 0 ->
     advanceAll dts [q] = []).
Proof.
  induction 1 as [| dt rest Hdt Hrest IH]; intros q.
  - split; [| intros Hne; now contradiction Hne].
    intros _. exists q. cbn [total]. unfold advanceAll. cbn [fold_left].
    repeat split; lra.
  - pose proof (total_nonneg rest Hrest) as Hpos.
    change (advanceAll (dt :: rest) [q])
      with (advanceAll rest (advanceParticles dt [q])).
    unfold advanceParticles. cbn [map filter total].
    destruct (particleAlive (advanceParticle dt q)) eqn:Ha.
    + apply particleAlive_true in Ha. rewrite advanceParticle_life in Ha.
      destruct (IH (advanceParticle dt q)) as (IH1 & IH2).
      rewrite advanceParticle_life in IH1, IH2.
      cbn [advanceParticle pt_x pt_y pt_vx pt_vy] in IH1. split.
      * intros Hl. destruct IH1 as (q' & Hq & H1 & H2 & H3 & H4 & H5); [lra |].
        exists q'. split; [exact Hq |]. rewrite H1, H2, H3, H4, H5.
        repeat split; lra.
      * intros _ Hl. apply IH2; [| lra].
        intros ->. cbn [total] in Hl. lra.
    + assert (Hd : pt_life q - 0.02 * (dt / 16.66) <= 0).
      { rewrite <- advanceParticle_life.
        destruct (Rle_or_lt (pt_life (advanceParticle dt q)) 0) as [Hle | Hlt];
          [exact Hle |].
        apply particleAlive_true in Hlt. congruence. }
      rewrite advanceAll_nil. split; [intros Hl; lra | reflexivity].
Qed.

(** X16: a particle of an explosion lasts 833 ms of frames to the
    millisecond, in any phase and however the time is cut into frames:
    after frames with non-negative elapsed times of total T it is still
    there when [T <= 832], having moved in a straight line by
    [velocity * T / 16.66] and with life [1 - 0.02 * T / 16.66], and it
    is gone when [T >= 834].  (At 833 ms its life is 0 up to the last
    digit, and the rounding decides.) *)
Theorem burst_particle_lasts_833_ms (dts : list R) (q : Particle) :
  pt_life q = 1 ->
  dts <> [] ->
  Forall (fun dt => 0 <= dt) dts ->
  (total dts <= 832 ->
   exists q',
     advanceAll dts [q] = [q'] /\
     pt_life q' = 1 - 0.02 * (total dts / 16.66) /\
     pt_x q' = pt_x q + pt_vx q * (total dts / 16.66) /\
     pt_y q' = pt_y q + pt_vy q * (total dts / 16.66)) /\
  (834 <= total dts -> advanceAll dts [q] = []).
Proof.
  intros Hlife Hne Hdts.
  destruct (advanceAll_single dts Hdts q) as (H1 & H2). rewrite Hlife in H1, H2.
  split; intros HT.
  - destruct H1 as (q' & Hq & Hl & Hx & Hy & _); [lra |].
    exists q'. auto.
  - apply H2; [exact Hne | lra].
Qed.

Lemma burst_particle_lasts_833_ms_witness :
  pt_life spark = 1 /\
  [400; 434] <> [] /\
  Forall (fun dt => 0 <= dt) [400; 434] /\
  (834 <= total [400; 434] -> advanceAll [400; 434] [spark] = []).
Proof.
  assert (H1 : pt_life spark = 1) by reflexivity.
  assert (H2 : [400; 434] <> []) by discriminate.
  assert (H3 : Forall (fun dt => 0 <= dt) [400; 434]) by (repeat constructor; lra).
  split; [exact H1 | split; [exact H2 | split; [exact H3 |]]].
  exact (proj2 (burst_particle_lasts_833_ms [400; 434] spark H1 H2 H3)).
Defined.

(** ** The frame driver *)

Lemma frameDt_later (lastTime time : R) :
  lastTime <> 0 -> frameDt lastTime time = time - lastTime.
Proof.
  intros H. unfold frameDt. destruct (Req_dec_T lastTime 0); [contradiction | reflexivity].
Qed.

Lemma last_after_head (rest : list R) :
  forall t d : R, last (t :: rest) d = last rest t.
Proof.
  induction rest as [| u rest IH]; intros t d; [reflexivity |].
  change (last (t :: u :: rest) d) with (last (u :: rest) d).
  now rewrite (IH u d), (IH u t).
Qed.

Lemma frameDts_running (times : list R) :
  forall lastTime,
    0 < lastTime ->
    ascending (lastTime :: times) ->
    Forall (fun dt => 0 <= dt) (frameDts lastTime times) /\
    total (frameDts lastTime times) = last times lastTime - lastTime.
Proof.
  induction times as [| t rest IH]; intros lastTime Hpos Hasc.
  - cbn. split; [constructor | lra].
  - destruct Hasc as (Hle & Hasc).
    assert (Ht : 0 < t) by lra.
    destruct (IH t Ht Hasc) as (Hall & Hsum).
    cbn [frameDts total]. rewrite frameDt_later by lra. rewrite Hsum.
    split; [constructor; [lra | exact Hall] |].
    rewrite last_after_head. lra.
Qed.

(** X17: driven at positive timestamps that never go back, from a time ref
    still at 0, the frame driver hands [update] an elapsed time of 0 on
    the first frame and a non-negative one on every frame, and the elapsed
    times add up to the time from the first frame to the last. *)
Theorem frame_times_telescope (first : R) (later : list R) :
  0 < first ->
  ascending (first :: later) ->
  let dts := frameDts 0 (first :: later) in
  hd 0 dts = 0 /\
  Forall (fun dt => 0 <= dt) dts /\
  total dts = last later first - first.
Proof.
  intros Hpos Hasc. cbv zeta. cbn [frameDts hd total].
  rewrite (first_frame_has_no_elapsed_time first).
  destruct (frameDts_running later first Hpos Hasc) as (Hall & Hsum).
  split; [reflexivity | split; [constructor; [lra | exact Hall] | lra]].
Qed.

Lemma frame_times_telescope_witness :
  0 < 1000 /\
  ascending [1000; 1016; 1033; 1050] /\
  total (frameDts 0 [1000; 1016; 1033; 1050]) = last [1016; 1033; 1050] 1000 - 1000.
Proof.
  assert (H1 : 0 < 1000) by lra.
  assert (H2 : ascending [1000; 1016; 1033; 1050]) by (cbn; repeat split; lra).
  split; [exact H1 | split; [exact H2 |]].
  exact (proj2 (proj2 (frame_times_telescope 1000 [1016; 1033; 1050] H1 H2))).
Defined.

(** ** Steering *)

(** X18: a steering intent in the playing phase moves the target by at
    most one lane (a quarter of the canvas width), never the wrong way,
    and moves nothing else: the player's x and y, the obstacles, the
    particles, the score and the timers are as before, and one call is
    made for the move sound. *)
Theorem steering_moves_target_one_lane
    (dir : Direction) (r : Refs) (canvas : Canvas) :
  canvasRef r = Some canvas ->
  0 <= width canvas ->
  10 <= p_targetX (playerRef r) <= width canvas - p_width (playerRef r) - 10 ->
  let t := p_targetX (playerRef r) in
  let res := handleMove PLAYING dir r in
  let t' := p_targetX (playerRef (fst res)) in
  match dir with
  | Left => t - width canvas / 4 <= t' <= t
  | Right => t <= t' <= t + width canvas / 4
  end /\
  fst res = set_playerRef (set_targetX t' (playerRef r)) r /\
  snd res = [playMoveSound].
Proof.
  intros Hc Hw Ht. cbv zeta. unfold handleMove.
  cbn [GameState_eqb negb]. rewrite Hc.
  destruct dir; cbn [fst snd set_playerRef playerRef set_targetX p_targetX];
    (split; [| split; reflexivity]).
  - unfold Rmax. destruct (Rle_dec _ _); lra.
  - unfold Rmin. destruct (Rle_dec _ _); lra.
Qed.

Lemma steering_moves_target_one_lane_witness :
  canvasRef (fst (resize 800 600 initialRefs)) = Some (mkCanvas 800 600) /\
  0 <= width (mkCanvas 800 600) /\
  snd (handleMove PLAYING Left (fst (resize 800 600 initialRefs))) = [playMoveSound].
Proof.
  assert (H1 : canvasRef (fst (resize 800 600 initialRefs)) = Some (mkCanvas 800 600))
    by reflexivity.
  assert (H2 : 0 <= width (mkCanvas 800 600)) by (cbn; lra).
  assert (H3 : 10 <= p_targetX (playerRef (fst (resize 800 600 initialRefs)))
               <= width (mkCanvas 800 600)
                  - p_width (playerRef (fst (resize 800 600 initialRefs))) - 10)
    by (cbn; lra).
  split; [exact H1 | split; [exact H2 |]].
  exact (proj2 (proj2 (steering_moves_target_one_lane Left
     (fst (resize 800 600 initialRefs)) (mkCanvas 800 600) H1 H2 H3))).
Defined.

(** ** Outside the playing phase *)

Lemma canvasStep_idle (rnd : nat -> R) (st : Refs * list Event) (a : CanvasAction) :
  idle a = true ->
  let st' := canvasStep rnd st a in
  snd st' = snd st /\
  sameGame (fst st) (fst st') /\
  randomCalls (fst st') = randomCalls (fst st) /\
  particlesRef (fst st') = advanceAll (elapsedTimes [a]) (particlesRef (fst st)).
Proof.
  intros Hi. unfold canvasStep, idle in *. destruct a as [gs dir | gs dt].
  - unfold handleMove. rewrite Hi. cbn. rewrite app_nil_r.
    split; [reflexivity | split; [apply sameGame_refl | split; reflexivity]].
  - assert (Hgs : gs <> PLAYING) by (intros ->; discriminate Hi).
    rewrite update_idle by (left; exact Hgs). cbn. rewrite app_nil_r.
    split; [reflexivity | split; [| split; reflexivity]].
    repeat split.
Qed.

Lemma fold_idle (rnd : nat -> R) (acts : list CanvasAction) :
  forallb idle acts = true ->
  forall st,
    let st' := fold_left (canvasStep rnd) acts st in
    snd st' = snd st /\
    sameGame (fst st) (fst st') /\
    randomCalls (fst st') = randomCalls (fst st) /\
    particlesRef (fst st') = advanceAll (elapsedTimes acts) (particlesRef (fst st)).
Proof.
  induction acts as [| a rest IH]; intros Hacts st; cbn [fold_left].
  - split; [reflexivity | split; [apply sameGame_refl | split; reflexivity]].
  - cbn [forallb] in Hacts. apply andb_prop in Hacts as (Ha & Hrest).
    destruct (canvasStep_idle rnd st a Ha) as (S1 & S2 & S3 & S4).
    destruct (IH Hrest (canvasStep rnd st a)) as (I1 & I2 & I3 & I4).
    cbv zeta. rewrite I1, I3, I4, S1, S3, S4.
    split; [reflexivity | split; [eapply sameGame_trans; eassumption | split; [reflexivity |]]].
    unfold advanceAll. rewrite <- fold_left_app. f_equal.
    destruct a as [gs dir | gs dt]; reflexivity.
Qed.

(** X19: outside the playing phase the game stands still: a run of
    steering intents and frames all taken in the start or the game-over
    phase makes no call at all and changes nothing but the particles,
    which go on through the particle pass of every frame. *)
Theorem idle_run_only_moves_particles
    (rnd : nat -> R) (acts : list CanvasAction) (r : Refs) :
  forallb idle acts = true ->
  let res := canvasRun rnd acts r in
  snd res = [] /\
  sameGame r (fst res) /\
  randomCalls (fst res) = randomCalls r /\
  particlesRef (fst res) = advanceAll (elapsedTimes acts) (particlesRef r).
Proof.
  intros Hacts. exact (fold_idle rnd acts Hacts (r, [])).
Qed.

Lemma idle_run_only_moves_particles_witness :
  forallb idle [frame GAMEOVER 16; move START Left; frame START 17] = true /\
  snd (canvasRun (fun _ => 0) [frame GAMEOVER 16; move START Left; frame START 17]
         crowded) = [].
Proof.
  split; [reflexivity |].
  exact (proj1 (idle_run_only_moves_particles (fun _ => 0)
     [frame GAMEOVER 16; move START Left; frame START 17] crowded eq_refl)).
Defined.

(** ** The scores reported during a frame *)

Lemma Zfloor_plus_10 (s : R) : Zfloor (s + 10) = (Zfloor s + 10)%Z.
Proof. exact (Zfloor_addz 10 s). Qed.

Lemma pass_reports (rnd : nat -> R) (dt : R) (canvas : Canvas) (p : Player)
    (obs : list Obstacle) :
  forall r,
    scoreUpdateCalls (snd (obstaclePass rnd dt canvas p obs r)) =
      map (fun k => (Zfloor (scoreRef r) + 10 * Z.of_nat k)%Z)
          (seq 1 (List.length (filter (passes dt canvas p) obs))).
Proof.
  induction obs as [| o rest IH]; intros r; [reflexivity |].
  destruct (outcome_cases dt canvas p o)
    as [(Hh & Hp & Hs) | [(Hh & Hp & Hs) | (Hh & Hp & Hs)]];
    cbn [filter]; rewrite Hp.
  - rewrite (pass_hit rnd dt canvas p o rest r Hh). cbv zeta.
    destruct (explosionLoop_spec rnd 25 (p_x p + p_width p / 2)
                (p_y p + p_height p / 2) RED_VULN r) as ((_ & _ & _ & Hsc & _) & _).
    specialize (IH (explosionLoop rnd 25 (p_x p + p_width p / 2)
                      (p_y p + p_height p / 2) RED_VULN r)).
    destruct (obstaclePass rnd dt canvas p rest _) as [[k r2] e].
    cbn [snd] in *. cbn [scoreUpdateCalls flat_map app]. fold (scoreUpdateCalls e).
    rewrite IH, Hsc. reflexivity.
  - rewrite (pass_passes rnd dt canvas p o rest r Hp). cbv zeta.
    specialize (IH (set_scoreRef (scoreRef r + 10) r)).
    destruct (obstaclePass rnd dt canvas p rest _) as [[k r2] e].
    cbn [snd] in *. cbn [scoreUpdateCalls flat_map app]. fold (scoreUpdateCalls e).
    rewrite IH. cbn [set_scoreRef scoreRef List.length seq map].
    rewrite Zfloor_plus_10, <- (seq_shift _ 1), map_map.
    rewrite (map_ext (fun k0 : nat => (Zfloor (scoreRef r) + 10 + 10 * Z.of_nat k0)%Z)
                     (fun k0 : nat => (Zfloor (scoreRef r) + 10 * Z.of_nat (S k0))%Z))
      by (intros i; lia).
    f_equal; lia.
  - rewrite (pass_stays rnd dt canvas p o rest r Hs).
    specialize (IH r).
    destruct (obstaclePass rnd dt canvas p rest r) as [[k r2] e].
    cbn [snd] in *. exact IH.
Qed.

(** X20: the scores reported during one playing frame go up in steps of
    exactly 10 from the floor of the score at the start of the frame: the
    k-th [onScoreUpdate] call of the frame carries
    [floor(score) + 10 * k]; the time accrual of the frame comes after
    them. *)
Theorem reported_scores_step_by_10
    (rnd : nat -> R) (dt : R) (r : Refs) (canvas : Canvas) :
  canvasRef r = Some canvas ->
  let res := update rnd PLAYING dt r in
  let reports := scoreUpdateCalls (snd res) in
  reports =
    map (fun k => (Zfloor (scoreRef r) + 10 * Z.of_nat k)%Z)
        (seq 1 (List.length reports)) /\
  scoreRef (fst res) = scoreRef r + 10 * INR (List.length reports) + 0.015 * dt.
Proof.
  intros Hc res reports.
  destruct (update_spec rnd dt r canvas Hc)
    as (_ & _ & _ & _ & _ & _ & Hs & _ & _ & Hn).
  fold res in Hs, Hn. fold reports in Hn.
  split; [| rewrite Hs, Hn; reflexivity].
  rewrite Hn. unfold reports, res.
  rewrite (update_playing rnd dt r canvas Hc). cbv zeta.
  destruct (beforePass_frame rnd canvas dt r) as (_ & Bp & _ & Bs & _).
  pose proof (pass_reports rnd dt canvas (playerRef (beforePass rnd canvas dt r))
                (obstaclesRef (beforePass rnd canvas dt r))
                (beforePass rnd canvas dt r)) as Hr.
  destruct (obstaclePass rnd dt canvas _ _ _) as [[k r2] e].
  cbn [snd] in *. rewrite Hr, Bs, Bp. reflexivity.
Qed.

Lemma reported_scores_step_by_10_witness :
  canvasRef lonely = Some (mkCanvas 800 600) /\
  scoreRef (fst (update (fun _ => 0) PLAYING 16.66 lonely)) =
    scoreRef lonely
    + 10 * INR (List.length (scoreUpdateCalls (snd (update (fun _ => 0) PLAYING 16.66 lonely))))
    + 0.015 * 16.66.
Proof.
  split; [reflexivity |].
  exact (proj2 (reported_scores_step_by_10 (fun _ => 0) 16.66 lonely
                  (mkCanvas 800 600) eq_refl)).
Defined.

(** ** The keyboard *)

Lemma toLowerChar_idempotent (c : ascii) :
  toLowerChar (toLowerChar c) = toLowerChar c.
Proof.
  destruct c as [[] [] [] [] [] [] [] []]; reflexivity.
Qed.

Lemma toLowerCase_idempotent (s : string) :
  toLowerCase (toLowerCase s) = toLowerCase s.
Proof.
  induction s as [| c s IH]; cbn [toLowerCase]; [reflexivity |].
  now rewrite toLowerChar_idempotent, IH.
Qed.

(** X21: the keyboard steers like the buttons and in any letter case:
    a key (written in ASCII) does what the same key in lower case does; a key press is either
    a steering intent to the left or to the right, or nothing at all; and
    outside the playing phase every key does nothing. *)
Theorem keys_steer_in_any_case (gs : GameState) (key : string) (r : Refs) :
  handleKeyDown gs (toLowerCase key) r = handleKeyDown gs key r /\
  (handleKeyDown gs key r = handleMove gs Left r \/
   handleKeyDown gs key r = handleMove gs Right r \/
   handleKeyDown gs key r = (r, [])) /\
  (gs <> PLAYING -> handleKeyDown gs key r = (r, [])) /\
  handleKeyDown PLAYING "A" r = handleMove PLAYING Left r /\
  handleKeyDown PLAYING "ArrowRight" r = handleMove PLAYING Right r.
Proof.
  unfold handleKeyDown. rewrite toLowerCase_idempotent.
  split; [reflexivity | split; [| split; [| split; reflexivity]]].
  - destruct (negb (GameState_eqb gs PLAYING)); [auto |].
    destruct (_ || _)%bool; [auto |]. destruct (_ || _)%bool; auto.
  - intros Hgs. destruct gs; try reflexivity. now contradiction Hgs.
Qed.

(** ** Invariants of a run *)

Lemma playingTime_nonneg (acts : list CanvasAction) :
  Forall elapsed acts -> 0 <= playingTime acts.
Proof.
  induction 1 as [| a rest Ha _ IH]; cbn [playingTime]; [lra |].
  destruct a as [gs dir | gs dt]; [exact IH |].
  destruct gs; cbn [elapsed] in Ha; lra.
Qed.

Lemma fold_calls_grow (rnd : nat -> R) (acts : list CanvasAction) :
  forall st,
    (List.length (scoreUpdateCalls (snd st)) <=
     List.length (scoreUpdateCalls (snd (fold_left (canvasStep rnd) acts st))))%nat.
Proof.
  induction acts as [| a rest IH]; intros st; cbn [fold_left]; [lia |].
  etransitivity; [| apply IH].
  unfold canvasStep.
  destruct (match a with
            | move gs dir => handleMove gs dir (fst st)
            | frame gs dt => update rnd gs dt (fst st)
            end) as [r' ev].
  cbn [snd]. rewrite scoreUpdateCalls_app, length_app. lia.
Qed.

(** X22: the score never goes down: over any run of steering intents and
    frames with non-negative elapsed times on a mounted canvas, from any
    state and in any phases, the score at the end is at least the score
    at the start. *)
Theorem score_never_decreases
    (rnd : nat -> R) (acts : list CanvasAction) (r : Refs) :
  canvasRef r <> None ->
  Forall elapsed acts ->
  scoreRef r <= scoreRef (fst (canvasRun rnd acts r)).
Proof.
  intros Hc Hacts. unfold canvasRun.
  pose proof (fold_score rnd acts (r, []) Hc) as Hs. cbv zeta in Hs.
  pose proof (fold_calls_grow rnd acts (r, [])) as Hn.
  pose proof (playingTime_nonneg acts Hacts) as HT.
  cbn [fst snd scoreUpdateCalls flat_map List.length INR] in Hs, Hn.
  apply le_INR in Hn. cbn [INR] in Hn. lra.
Qed.

Lemma score_never_decreases_witness :
  canvasRef crowded <> None /\
  Forall elapsed [frame PLAYING 16.66; move PLAYING Right; frame GAMEOVER 20] /\
  scoreRef crowded <=
    scoreRef (fst (canvasRun (fun _ => 0)
       [frame PLAYING 16.66; move PLAYING Right; frame GAMEOVER 20] crowded)).
Proof.
  assert (H1 : canvasRef crowded <> None) by (cbn; discriminate).
  assert (H2 : Forall elapsed [frame PLAYING 16.66; move PLAYING Right; frame GAMEOVER 20])
    by (repeat constructor; cbn; lra).
  split; [exact H1 | split; [exact H2 |]].
  exact (score_never_decreases (fun _ => 0) _ crowded H1 H2).
Defined.

Lemma canvasStep_unmounted (rnd : nat -> R) (st : Refs * list Event) (a : CanvasAction) :
  canvasRef (fst st) = None ->
  let st' := canvasStep rnd st a in
  snd st' = snd st /\
  sameGame (fst st) (fst st') /\
  randomCalls (fst st') = randomCalls (fst st) /\
  particlesRef (fst st') = advanceAll (elapsedTimes [a]) (particlesRef (fst st)).
Proof.
  intros Hc. unfold canvasStep. destruct a as [gs dir | gs dt].
  - unfold handleMove. rewrite Hc.
    destruct (negb (GameState_eqb gs PLAYING)); cbn; rewrite app_nil_r;
      (split; [reflexivity | split; [apply sameGame_refl | split; reflexivity]]).
  - rewrite update_idle by (right; exact Hc). cbn. rewrite app_nil_r.
    split; [reflexivity | split; [| split; reflexivity]].
    repeat split.
Qed.

(** X23: while the canvas is not mounted nothing happens but the particle
    pass: a run of steering intents and frames, in any phases, makes no
    call, spawns and moves nothing, leaves score and timers alone, and
    the canvas stays unmounted. *)
Theorem unmounted_canvas_run_is_inert
    (rnd : nat -> R) (acts : list CanvasAction) (r : Refs) :
  canvasRef r = None ->
  let res := canvasRun rnd acts r in
  snd res = [] /\
  sameGame r (fst res) /\
  canvasRef (fst res) = None /\
  particlesRef (fst res) = advanceAll (elapsedTimes acts) (particlesRef r).
Proof.
  intros Hc. cbv zeta. unfold canvasRun.
  assert (Hgen : forall st,
            canvasRef (fst st) = None ->
            snd (fold_left (canvasStep rnd) acts st) = snd st /\
            sameGame (fst st) (fst (fold_left (canvasStep rnd) acts st)) /\
            particlesRef (fst (fold_left (canvasStep rnd) acts st)) =
              advanceAll (elapsedTimes acts) (particlesRef (fst st))).
  { induction acts as [| a rest IH]; intros st Hst; cbn [fold_left].
    - split; [reflexivity | split; [apply sameGame_refl | reflexivity]].
    - destruct (canvasStep_unmounted rnd st a Hst) as (S1 & S2 & _ & S4).
      assert (Hst' : canvasRef (fst (canvasStep rnd st a)) = None).
      { destruct S2 as (S2 & _). rewrite S2. exact Hst. }
      destruct (IH _ Hst') as (I1 & I2 & I4).
      rewrite I1, I4, S1, S4.
      split; [reflexivity | split; [eapply sameGame_trans; eassumption |]].
      unfold advanceAll. rewrite <- fold_left_app. f_equal.
      destruct a as [gs dir | gs dt]; reflexivity. }
  destruct (Hgen (r, []) Hc) as (H1 & H2 & H4).
  split; [exact H1 | split; [exact H2 | split; [| exact H4]]].
  destruct H2 as (H2 & _). rewrite H2. exact Hc.
Qed.

Lemma unmounted_canvas_run_is_inert_witness :
  canvasRef initialRefs = None /\
  snd (canvasRun (fun _ => 0) [frame PLAYING 16; move PLAYING Left] initialRefs) = [].
Proof.
  split; [reflexivity |].
  exact (proj1 (unmounted_canvas_run_is_inert (fun _ => 0)
     [frame PLAYING 16; move PLAYING Left] initialRefs eq_refl)).
Defined.

Lemma wellFormed_faster (W base base' : R) (o : Obstacle) :
  base <= base' -> wellFormed W base o -> wellFormed W base' o.
Proof.
  unfold wellFormed. intros Hb (H1 & H2 & H3 & H4 & H5 & H6).
  repeat split; try tauto; lra.
Qed.

Lemma wellFormed_fall (W base dt : R) (o : Obstacle) :
  0 <= dt -> wellFormed W base o -> wellFormed W base (fall dt o).
Proof.
  unfold wellFormed, fall, INITIAL_FALL_SPEED.
  intros Hdt (H1 & H2 & H3 & H4 & H5 & H6).
  cbn [o_color o_height o_width o_y o_speed o_x].
  assert (Hq : 0 <= dt / 16.66) by (apply Rle_mult_inv_pos; lra).
  repeat split; try tauto; try lra; nra.
Qed.

Lemma wellFormed_spawn (rnd : nat -> R) (canvas : Canvas) (r : Refs) :
  (forall n, 0 <= rnd n < 1) ->
  INITIAL_FALL_SPEED <= currentFallSpeedRef r ->
  wellFormed (width canvas) (currentFallSpeedRef r) (spawnObstacle rnd canvas r).
Proof.
  intros Hr Hf.
  destruct (spawnObstacle_bounds rnd canvas r Hr) as (Hs & Hw & Hy & Hh & Hx).
  unfold wellFormed. rewrite Hy, Hh.
  split; [reflexivity | split; [reflexivity | split; [exact Hw |]]].
  split; [lra | split; [lra |]].
  intros HW. assert (Hfit : o_width (spawnObstacle rnd canvas r) <= width canvas) by lra.
  specialize (Hx Hfit). lra.
Qed.

(** What a run keeps true on a canvas [W] by [H]: the canvas, the shape
    and the height of the player, and well-formed obstacles. *)
Lemma canvasStep_wellFormed (rnd : nat -> R) (W H : R) (st : Refs * list Event)
    (a : CanvasAction) :
  (forall n, 0 <= rnd n < 1) ->
  elapsed a ->
  let inv := fun r : Refs =>
    canvasRef r = Some (mkCanvas W H) /\
    (p_y (playerRef r) = H - 240 /\ p_width (playerRef r) = 48 /\
     p_height (playerRef r) = 48 /\ p_color (playerRef r) = BASE_BLUE) /\
    INITIAL_FALL_SPEED <= currentFallSpeedRef r /\
    Forall (wellFormed W (currentFallSpeedRef r)) (obstaclesRef r) in
  inv (fst st) -> inv (fst (canvasStep rnd st a)).
Proof.
  intros Hr Ha inv (Hc & (Py & Pw & Ph & Pc) & Hf & Ho). unfold canvasStep.
  destruct a as [gs dir | gs dt].
  - destruct (handleMove_keeps gs dir (fst st))
      as ((K1 & _ & K3 & _ & _ & _ & K7) & _ & _ & _ & Ky & Kw & Kh & Kc).
    destruct (handleMove gs dir (fst st)) as [r' ev].
    cbn [fst set_playerRef canvasRef obstaclesRef currentFallSpeedRef] in *.
    unfold inv. rewrite K1, K3, K7, Ky, Kw, Kh, Kc. repeat split; assumption.
  - cbn [elapsed] in Ha.
    destruct gs.
    1,3: rewrite update_idle by (left; discriminate); unfold inv; cbn;
         repeat split; assumption.
    destruct (update_spec rnd dt (fst st) (mkCanvas W H) Hc)
      as (U1 & U2 & U3 & _ & _ & U6 & _).
    destruct (update rnd PLAYING dt (fst st)) as [r' ev]. cbn [fst] in *.
    assert (Hf' : INITIAL_FALL_SPEED <= currentFallSpeedRef r')
      by (rewrite U6; unfold SPEED_INCREMENT; nra).
    unfold inv. rewrite U1, U2. cbn [easePlayer p_y p_width p_height p_color].
    split; [reflexivity | split; [repeat split; assumption | split; [exact Hf' |]]].
    rewrite U3. apply Forall_forall. intros o' Hin.
    apply in_map_iff in Hin as (o & <- & Hin).
    apply filter_In in Hin as (Hin & _).
    apply wellFormed_fall; [exact Ha |].
    assert (Hold : forall o0, In o0 (obstaclesRef (fst st)) ->
                              wellFormed W (currentFallSpeedRef r') o0).
    { intros o0 H0. rewrite Forall_forall in Ho.
      apply (wellFormed_faster W (currentFallSpeedRef (fst st))); [| now apply Ho].
      rewrite U6. unfold SPEED_INCREMENT. nra. }
    destruct (Rle_or_lt (spawnTimerRef (fst st) - dt) 0) as [Hs | Hw].
    + destruct (beforePass_spawns rnd (mkCanvas W H) dt (fst st) Hs) as (Hb & _).
      rewrite Hb in Hin. apply in_app_or in Hin as [Hin | [<- | []]]; [now apply Hold |].
      rewrite U6.
      change (currentFallSpeedRef (fst st) + SPEED_INCREMENT * dt)
        with (currentFallSpeedRef (beforeSpawn dt (fst st))).
      change W with (width (mkCanvas W H)) at 1.
      apply wellFormed_spawn; [exact Hr |].
      cbn [beforeSpawn set_spawnTimerRef set_currentDifficultyRef
           set_currentFallSpeedRef currentFallSpeedRef].
      cbn [set_playerRef set_particlesRef currentFallSpeedRef].
      unfold SPEED_INCREMENT. nra.
    + destruct (beforePass_waits rnd (mkCanvas W H) dt (fst st) Hw) as (Hb & _).
      rewrite Hb in Hin. now apply Hold.
Qed.

Lemma fold_wellFormed (rnd : nat -> R) (W H : R) (acts : list CanvasAction) :
  (forall n, 0 <= rnd n < 1) ->
  Forall elapsed acts ->
  forall st,
    (canvasRef (fst st) = Some (mkCanvas W H) /\
     (p_y (playerRef (fst st)) = H - 240 /\ p_width (playerRef (fst st)) = 48 /\
      p_height (playerRef (fst st)) = 48 /\ p_color (playerRef (fst st)) = BASE_BLUE) /\
     INITIAL_FALL_SPEED <= currentFallSpeedRef (fst st) /\
     Forall (wellFormed W (currentFallSpeedRef (fst st))) (obstaclesRef (fst st))) ->
    let r' := fst (fold_left (canvasStep rnd) acts st) in
    canvasRef r' = Some (mkCanvas W H) /\
    (p_y (playerRef r') = H - 240 /\ p_width (playerRef r') = 48 /\
     p_height (playerRef r') = 48 /\ p_color (playerRef r') = BASE_BLUE) /\
    INITIAL_FALL_SPEED <= currentFallSpeedRef r' /\
    Forall (wellFormed W (currentFallSpeedRef r')) (obstaclesRef r').
Proof.
  intros Hr. induction 1 as [| a rest Ha _ IH]; intros st Hinv; cbn [fold_left].
  - exact Hinv.
  - apply IH. exact (canvasStep_wellFormed rnd W H st a Hr Ha Hinv).
Qed.

Lemma reset_wellFormed (W H : R) (r0 : Refs) :
  canvasRef (fst (resize W H r0)) = Some (mkCanvas W H) /\
  (p_y (playerRef (fst (resize W H r0))) = H - 240 /\
   p_width (playerRef (fst (resize W H r0))) = 48 /\
   p_height (playerRef (fst (resize W H r0))) = 48 /\
   p_color (playerRef (fst (resize W H r0))) = BASE_BLUE) /\
  INITIAL_FALL_SPEED <= currentFallSpeedRef (fst (resize W H r0)) /\
  Forall (wellFormed W (currentFallSpeedRef (fst (resize W H r0))))
         (obstaclesRef (fst (resize W H r0))).
Proof.
  cbn. repeat split; try lra. constructor.
Qed.

(** X24: every obstacle on screen is well formed.  With every draw of
    [Math.random] in [0, 1), after a reset and any run with non-negative
    elapsed times each obstacle of the state is red and 45 high, between
    50 and 130 wide, at or below its spawn height of -100, falls at a
    speed between the initial base speed 4 and the current base speed
    plus 2.5, and, on a canvas at least 130 wide, lies inside the canvas
    horizontally. *)
Theorem obstacles_stay_well_formed
    (rnd : nat -> R) (W H : R) (r0 : Refs) (acts : list CanvasAction) :
  (forall n, 0 <= rnd n < 1) ->
  Forall elapsed acts ->
  let r := fst (canvasRun rnd acts (fst (resize W H r0))) in
  Forall (wellFormed W (currentFallSpeedRef r)) (obstaclesRef r).
Proof.
  intros Hr Hacts r.
  exact (proj2 (proj2 (proj2
    (fold_wellFormed rnd W H acts Hr Hacts (fst (resize W H r0), [])
       (reset_wellFormed W H r0))))).
Qed.

Lemma obstacles_stay_well_formed_witness :
  (forall n : nat, 0 <= (fun _ : nat => 1 / 2) n < 1) /\
  Forall elapsed [frame PLAYING 16; frame PLAYING 17] /\
  Forall (wellFormed 800
            (currentFallSpeedRef (fst (canvasRun (fun _ => 1 / 2)
               [frame PLAYING 16; frame PLAYING 17] (fst (resize 800 600 initialRefs))))))
         (obstaclesRef (fst (canvasRun (fun _ => 1 / 2)
               [frame PLAYING 16; frame PLAYING 17] (fst (resize 800 600 initialRefs))))).
Proof.
  assert (Hr : forall n : nat, 0 <= (fun _ : nat => 1 / 2) n < 1) by (intros n; lra).
  assert (Ha : Forall elapsed [frame PLAYING 16; frame PLAYING 17])
    by (repeat constructor; cbn; lra).
  split; [exact Hr | split; [exact Ha |]].
  exact (obstacles_stay_well_formed (fun _ => 1 / 2) 800 600 initialRefs _ Hr Ha).
Defined.

Lemma canvasStep_shape (rnd : nat -> R) (st : Refs * list Event) (a : CanvasAction) :
  let p := playerRef (fst st) in
  let p' := playerRef (fst (canvasStep rnd st a)) in
  p_y p' = p_y p /\ p_width p' = p_width p /\
  p_height p' = p_height p /\ p_color p' = p_color p.
Proof.
  cbv zeta. unfold canvasStep. destruct a as [gs dir | gs dt].
  - destruct (handleMove_keeps gs dir (fst st)) as (_ & _ & _ & _ & Ky & Kw & Kh & Kc).
    destruct (handleMove gs dir (fst st)) as [r' ev]. cbn [fst] in *. auto.
  - pose proof (update_playerRef rnd gs dt (fst st)) as Hp.
    destruct (update rnd gs dt (fst st)) as [r' ev]. cbn [fst] in *. rewrite Hp.
    destruct gs; auto. destruct (canvasRef (fst st)); auto.
Qed.

(** X25: the player keeps its place on the vertical axis and its shape:
    after a reset on a canvas H high and any run of steering intents and
    frames, the player is 48 by 48, blue, and its top edge is at
    [H - 240]; only its x and its target-x ever change. *)
Theorem player_keeps_height_and_shape
    (rnd : nat -> R) (W H : R) (r0 : Refs) (acts : list CanvasAction) :
  let p := playerRef (fst (canvasRun rnd acts (fst (resize W H r0)))) in
  p_y p = H - 240 /\ p_width p = 48 /\ p_height p = 48 /\ p_color p = BASE_BLUE.
Proof.
  cbv zeta. unfold canvasRun.
  assert (Hgen : forall st,
            let p := playerRef (fst st) in
            let p' := playerRef (fst (fold_left (canvasStep rnd) acts st)) in
            p_y p' = p_y p /\ p_width p' = p_width p /\
            p_height p' = p_height p /\ p_color p' = p_color p).
  { induction acts as [| a rest IH]; intros st; cbn [fold_left]; [auto |].
    destruct (canvasStep_shape rnd st a) as (S1 & S2 & S3 & S4).
    destruct (IH (canvasStep rnd st a)) as (I1 & I2 & I3 & I4).
    cbv zeta. rewrite I1, I2, I3, I4. auto. }
  destruct (Hgen (fst (resize W H r0), [])) as (H1 & H2 & H3 & H4).
  rewrite H1, H2, H3, H4. cbn. auto.
Qed.

(** ** The star field *)

Lemma jsRem_bounds (a b : R) : 0 <= a -> 0 < b -> 0 <= jsRem a b < b.
Proof.
  intros Ha Hb. unfold jsRem, truncate.
  assert (Hq : 0 <= a / b) by (apply Rle_mult_inv_pos; assumption).
  destruct (Rlt_dec (a / b) 0) as [Hneg | _]; [lra |].
  pose proof (Zfloor_bound (a / b)) as (Hlo & Hhi).
  assert (Ha' : a = a / b * b) by (field; lra).
  set (q := a / b) in *. set (f := IZR (Zfloor q)) in *.
  split; nra.
Qed.

Lemma jsRem_period (a b : R) : 0 <= a -> 0 < b -> jsRem (a + b) b = jsRem a b.
Proof.
  intros Ha Hb. unfold jsRem, truncate.
  assert (Hq : 0 <= a / b) by (apply Rle_mult_inv_pos; assumption).
  replace ((a + b) / b) with (a / b + IZR 1) by (field; lra).
  destruct (Rlt_dec (a / b + IZR 1) 0) as [Hneg | _]; [lra |].
  destruct (Rlt_dec (a / b) 0) as [Hneg | _]; [lra |].
  rewrite Zfloor_addz, plus_IZR. lra.
Qed.

(** X26: with every draw in [0, 1) on a canvas of positive size, a star
    is made inside the canvas with a size in [0.5, 2), and for every
    non-negative score it is drawn at a height inside the canvas; the
    star field scrolls with the score and repeats every [2 * height]
    points. *)
Theorem stars_stay_on_canvas
    (rnd : nat -> R) (canvas : Canvas) (score : R) (n : nat) :
  (forall k, 0 <= rnd k < 1) ->
  0 < width canvas -> 0 < height canvas ->
  0 <= score ->
  let star := makeStar rnd canvas n in
  0 <= st_x star < width canvas /\
  0 <= st_y star < height canvas /\
  0.5 <= st_size star < 2 /\
  0 <= starScreenY canvas score star < height canvas /\
  starScreenY canvas (score + 2 * height canvas) star = starScreenY canvas score star.
Proof.
  intros Hr HW HH Hs star.
  pose proof (Hr n) as H0. pose proof (Hr (n + 1)%nat) as H1.
  pose proof (Hr (n + 2)%nat) as H2.
  assert (Hy : 0 <= st_y star < height canvas)
    by (unfold star, makeStar; cbn [st_y]; split; nra).
  assert (Ho : 0 <= starOffset canvas score < height canvas)
    by (apply jsRem_bounds; lra).
  split; [unfold star, makeStar; cbn [st_x]; split; nra |].
  split; [exact Hy |].
  split; [unfold star, makeStar; cbn [st_size]; lra |].
  split; [apply jsRem_bounds; lra |].
  unfold starScreenY. f_equal. f_equal. unfold starOffset.
  replace ((score + 2 * height canvas) * 0.5) with (score * 0.5 + height canvas) by lra.
  apply jsRem_period; lra.
Qed.

Lemma stars_stay_on_canvas_witness :
  (forall k : nat, 0 <= (fun _ : nat => 1 / 2) k < 1) /\
  0 < width (mkCanvas 800 600) /\ 0 < height (mkCanvas 800 600) /\
  0 <= 1250 /\
  0 <= starScreenY (mkCanvas 800 600) 1250
         (makeStar (fun _ => 1 / 2) (mkCanvas 800 600) 0) < height (mkCanvas 800 600).
Proof.
  assert (Hr : forall k : nat, 0 <= (fun _ : nat => 1 / 2) k < 1) by (intros k; lra).
  assert (HW : 0 < width (mkCanvas 800 600)) by (cbn; lra).
  assert (HH : 0 < height (mkCanvas 800 600)) by (cbn; lra).
  assert (Hs : 0 <= 1250) by lra.
  split; [exact Hr | split; [exact HW | split; [exact HH | split; [exact Hs |]]]].
  exact (proj1 (proj2 (proj2 (proj2
    (stars_stay_on_canvas (fun _ => 1 / 2) (mkCanvas 800 600) 1250 0 Hr HW HH Hs))))).
Defined.
